(** * Lowering of TKSL programs to Tierkreis graphs

    A shallow embedding of [tierkreis/frontend/tksl/antlr_test.py]: the
    [Context] record, the [TkslTopVisitor] class and the parts of the
    graph builder it calls, followed by the properties of name
    resolution, argument binding and nested-block lowering. *)

From Stdlib Require Import ZArith String List.
From stdpp Require Import base option gmap strings list fin_maps.

Set Warnings "-register-all".

Open Scope string_scope.
Open Scope list_scope.

(** ** Insertion-ordered dictionaries

    [OrderedDict], and a [dict] whose iteration order is observed (keyword
    arguments, named maps), are association lists with unique keys in
    insertion order.  Assigning to a key that is present keeps its position
    and replaces its value; a new key goes to the end. *)

Module OrderedDict.
Section Dict.
Context {V : Type}.

Fixpoint setitem (k : string) (v : V) (d : list (string * V)) : list (string * V) :=
  match d with
  | [] => [(k, v)]
  | (k', v') :: d' =>
      if String.eqb k k' then (k, v) :: d' else (k', v') :: setitem k v d'
  end.

(** [OrderedDict(items)] and [dict(items)]: the items are assigned from
    left to right. *)
Definition of_items (items : list (string * V)) : list (string * V) :=
  fold_left (fun d kv => setitem kv.1 kv.2 d) items [].

Fixpoint getitem (k : string) (d : list (string * V)) : option V :=
  match d with
  | [] => None
  | (k', v) :: d' => if String.eqb k k' then Some v else getitem k d'
  end.

(** [list(d)]: the keys in insertion order. *)
Definition keys (d : list (string * V)) : list string := map fst d.

(** [k in d] *)
Definition contains (k : string) (d : list (string * V)) : bool :=
  bool_decide (is_Some (getitem k d)).
End Dict.
End OrderedDict.

(** The keys of [dict(zip(ks, vs))]-like constructions are the distinct
    entries of a list in order of first occurrence. *)
Fixpoint first_occurrences (seen : list string) (l : list string) : list string :=
  match l with
  | [] => []
  | x :: l' =>
      if bool_decide (x ∈ seen) then first_occurrences seen l'
      else x :: first_occurrences (x :: seen) l'
  end.

(** ** Types of the graph IR *)

(** Modelled from the spec: the module [tierkreis.core.types] is not among
    the sources.  The type terms are those of the data model: the four
    primitive types, pairs, vectors, maps, structs over a row of fields,
    graph types over a row of inputs and a row of outputs, and type
    variables. *)
Inductive TierkreisType :=
| IntType
| BoolType
| StringType
| FloatType
| PairType (first second : TierkreisType)
| MapType (key val : TierkreisType)
| VecType (element : TierkreisType)
| StructType (shape : list (string * TierkreisType))
| GraphTypeT (gt_in gt_out : list (string * TierkreisType))
| VarType (name : string).

(** Modelled from the spec: [Row(content)], an ordered mapping of port
    names to types. *)
Definition Row := list (string * TierkreisType).

(** Modelled from the spec: [GraphType(inputs=Row(..), outputs=Row(..))]. *)
Record GraphType := mkGraphType {
  gt_inputs : Row;
  gt_outputs : Row
}.

Definition type_of_graph_type (g : GraphType) : TierkreisType :=
  GraphTypeT (gt_inputs g) (gt_outputs g).

(** [PortMap = OrderedDict[str, Optional[TierkreisType]]] *)
Definition PortMap := list (string * option TierkreisType).

(** [@dataclass class FunctionDefinition] *)
Record FunctionDefinition := mkFunctionDefinition {
  fd_inputs : list string;
  fd_outputs : list string;
  fd_graph_type : option GraphType
}.

(** Modelled from the spec: [TierkreisFunction] is not among the sources.
    An entry of the signature catalog exposes a canonical name, the ordered
    input port names and the ordered output port names; the visitor reads
    them as [name], [input_order] and [output_order]. *)
Record TierkreisFunction := mkTierkreisFunction {
  tf_name : string;
  input_order : list string;
  output_order : list string
}.

(** [def_from_tkfunc] *)
Definition def_from_tkfunc (func : TierkreisFunction) : FunctionDefinition :=
  mkFunctionDefinition (input_order func) (output_order func) None.

(** [RuntimeSignature = Dict[str, Dict[str, TierkreisFunction]]] *)
Abbreviation RuntimeSignature := (gmap string (gmap string TierkreisFunction)).

(** ** The graph builder

    The class [TierkreisGraph] with [NodeRef], [NodePort] and
    [TierkreisEdge] is imported from [tierkreis.core.tierkreis_graph],
    which is not among the sources.  The definitions of this part follow
    the data model of the specification: a graph is a collection of nodes
    and of edges between ports, with two distinguished boundary nodes
    [input] and [output]; a node is named by an opaque reference; a
    constant is a dedicated node whose single output port is [value]; a
    value given for an input of a node, such as the sub-graph of a
    conditional or of a loop, is carried into the graph by a constant node
    of its own, wired to that input; an edge whose target port is already
    written is refused. *)

(** Modelled from the spec: [NodeRef], an opaque reference to a node: one
    of the two boundary nodes, or the node made by the [i]-th builder
    call. *)
Inductive NodeRef :=
| InputRef
| OutputRef
| NodeIdx (i : nat).

(** Modelled from the spec: [NodePort(node_ref, port)], a port of a node;
    [node_ref[port]] builds the same pair. *)
Record NodePort := mkNodePort {
  np_node : NodeRef;
  np_port : string
}.

(** Modelled from the spec: an edge, directed from a source port to a
    target port. *)
Record TierkreisEdge := mkEdge {
  edge_source : NodePort;
  edge_target : NodePort
}.

(** Modelled from the spec: the values a constant node may hold, the kinds
    of node (a constant, an operation named by its function, a boxed
    sub-graph with its label), and [TierkreisGraph]. *)
Inductive Value :=
| VInt (z : Z)
| VBool (b : bool)
| VFloat (lexeme : string)
| VStr (s : string)
| VList (elems : list Value)
| VStruct (flds : list (string * Value))
| VNone
| VGraph (g : TierkreisGraph)
with Node :=
| ConstNode (v : Value)
| FunctionNode (fname : string)
| BoxNode (g : TierkreisGraph) (label : string)
with TierkreisGraph :=
| mkGraph (nodes : list Node) (edges : list TierkreisEdge).

Definition graph_nodes (g : TierkreisGraph) : list Node :=
  match g with mkGraph ns _ => ns end.

Definition graph_edges (g : TierkreisGraph) : list TierkreisEdge :=
  match g with mkGraph _ es => es end.

(** Modelled from the spec: [TierkreisGraph()], a graph with no node
    besides the boundary nodes and no edge. *)
Definition empty_graph : TierkreisGraph := mkGraph [] [].

(** Modelled from the spec: [graph.input], the boundary input node. *)
Definition graph_input : NodeRef := InputRef.

(** Modelled from the spec: [node_ref[port]]. *)
Definition getport (n : NodeRef) (port : string) : NodePort := mkNodePort n port.

#[global] Instance NodeRef_eq_dec : EqDecision NodeRef.
Proof. solve_decision. Defined.

#[global] Instance NodePort_eq_dec : EqDecision NodePort.
Proof. solve_decision. Defined.

(** Modelled from the spec: [graph.inputs()], the ports of the boundary
    input node that carry an edge, in the order the edges were added. *)
Definition graph_inputs (g : TierkreisGraph) : list string :=
  map (fun e => np_port (edge_source e))
      (filter (fun e => np_node (edge_source e) = InputRef) (graph_edges g)).

(** Modelled from the spec: [graph.outputs()], the ports of the boundary
    output node that carry an edge, in the order the edges were added. *)
Definition graph_outputs (g : TierkreisGraph) : list string :=
  map (fun e => np_port (edge_target e))
      (filter (fun e => np_node (edge_target e) = OutputRef) (graph_edges g)).

(** A keyword argument of a builder call: a port to wire from, or a value
    (here always a graph), which the builder carries in a constant node. *)
Inductive Incoming :=
| FromPort (p : NodePort)
| Supplied (v : Value).

(** ** Exceptions *)

Inductive Error :=
| RuntimeError (msg : string)
| KeyError (key : string)
| IndexError
| AttributeError
| TypeError (msg : string)
| AssertionError
| PortDoubleWired (target : NodePort).

Inductive Result (A : Type) :=
| Ok (a : A)
| Raise (e : Error).
Arguments Ok {A} a.
Arguments Raise {A} e.

(** ** Context *)

(** [@dataclass class Context] *)
Record Context := mkContext {
  functions : gmap string (TierkreisGraph * FunctionDefinition);
  output_vars : gmap string (NodeRef * FunctionDefinition);
  constants : gmap string NodeRef;
  inputs : PortMap;
  outputs : PortMap;
  aliases : gmap string TierkreisType
}.

(** [Context()] *)
Definition empty_context : Context := mkContext ∅ ∅ ∅ [] [] ∅.

(** [Context.copy] is [copy.deepcopy]: the copy shares no mutable object
    with the original, so later updates of either are invisible to the
    other.  On immutable values that is the identity. *)
Definition copy (c : Context) : Context := c.

(** ** Parse trees

    Modelled from the spec: the parse-tree classes generated from the
    grammar ([TkslParser]) are not among the sources.  The types below
    follow the grammar of the specification; each has one constructor per
    alternative that the visitor method for that rule distinguishes, with
    the children and labels the method reads.  A constructor without
    children stands for a tree in which none of the tested children is
    present. *)

(** [port_label]: [ID(0) . ID(1)] *)
Record Port_label := mkPort_label {
  pl_var : string;
  pl_port : string
}.

(** [f_name]: [func_name], with an optional [namespace] *)
Record F_name := mkF_name {
  fn_namespace : option string;
  fn_func_name : string
}.

Inductive Thunkable_port :=
| ThunkPortLabel (pl : Port_label)
| ThunkID (name : string)
| ThunkNeither.

(** [const_]; numeric tokens carry the number they spell, a string token
    its lexeme with the enclosing quotes. *)
Inductive Const_ :=
| ConstInt (z : Z)
| ConstBool (is_true : bool)
| ConstFloat (lexeme : string)
| ConstString (lexeme : string)
| ConstVec (elems : list Const_)
| ConstStruct (sid : string) (fields : list (string * Const_))
| ConstNeither.

Inductive Outport :=
| OutThunkable (tp : Thunkable_port)
| OutNodeInputs (call : Node_inputs)
| OutConst (c : Const_)
| OutNeither
with Node_inputs :=
| FuncCall (f : F_name) (args : option Arglist)
| Thunk (tp : Thunkable_port) (named : option (list (string * Outport)))
with Arglist :=
| ArgNamed (port_l : list (string * Outport))
| ArgPositional (arg_l : list Outport)
| ArgNeither.

(** [named_map]: the list [port_l] of [port_map] children, each an
    [inport] name and an [outport]. *)
Definition Named_map := list (string * Outport).

Inductive Inst :=
| ConstDecl (const_name : string) (c : Const_)
| CallMap (target : string) (call : Node_inputs)
| IfBlock (target : string) (condition : Outport) (inps : option Named_map)
          (if_block else_block : list Inst)
| Loop (target : string) (inps : option Named_map) (body condition : list Inst)
| OutputCall (args : option Arglist)
| Edge (source target : Port_label).

Definition Code_block := list Inst.

Inductive Type_ :=
| TypeInt
| TypeBool
| TypeStr
| TypeFloat
| TypePair (first second : Type_)
| TypeMap (key val : Type_)
| TypeVec (element : Type_)
| TypeStruct (fields : list (string * Type_))
| TypeGraph (g : Graph_type)
| TypeID (id : string)
| TypeNeither
with Graph_type :=
| mkGraph_type (par_in par_out : list (string * Type_)).

Inductive Declaration :=
| TypeAlias (id : string) (ty : Type_)
| FuncDef (id : string) (gt : Graph_type) (code_block : Code_block).

(** ** Results and the visitor monad *)

Definition rbind {A B} (r : Result A) (k : A -> Result B) : Result B :=
  match r with
  | Ok a => k a
  | Raise e => Raise e
  end.

(** [d[k]] on a dictionary: [KeyError] when the key is absent. *)
Definition subscript {A} (o : option A) (key : string) : Result A :=
  match o with
  | Some a => Ok a
  | None => Raise (KeyError key)
  end.

(** [l[0]] *)
Definition first_item {A} (l : list A) : Result A :=
  match l with
  | a :: _ => Ok a
  | [] => Raise IndexError
  end.

Section MapResult.
Context {A B : Type} (f : A -> Result B).

(** [list(map(f, l))] when [f] may raise: left to right, the first
    exception wins. *)
Fixpoint map_result (l : list A) : Result (list B) :=
  match l with
  | [] => Ok []
  | a :: l' =>
      rbind (f a) (fun b => rbind (map_result l') (fun bs => Ok (b :: bs)))
  end.
End MapResult.

(** ** Builder operations *)

(** Modelled from the spec: [graph.add_const(value)] adds a constant node
    holding the value; a new node takes the next free index. *)
Definition add_const (g : TierkreisGraph) (v : Value) : NodeRef * TierkreisGraph :=
  (NodeIdx (length (graph_nodes g)),
   mkGraph (graph_nodes g ++ [ConstNode v]) (graph_edges g)).

(** Modelled from the spec: whether an edge of the graph already targets
    the port. *)
Definition port_written (g : TierkreisGraph) (p : NodePort) : bool :=
  bool_decide (p ∈ map edge_target (graph_edges g)).

(** Modelled from the spec: [graph.add_edge(src, tgt)]; a target port is
    written by one edge only. *)
Definition add_edge (g : TierkreisGraph) (src tgt : NodePort) : Result TierkreisGraph :=
  if port_written g tgt then Raise (PortDoubleWired tgt)
  else Ok (mkGraph (graph_nodes g) (graph_edges g ++ [mkEdge src tgt])).

(** Modelled from the spec: the keyword arguments of a new node [n], taken
    in order: a port is wired to the input of that name by an edge; a value
    is put in a new constant node, whose [value] port is wired to the
    input. *)
Fixpoint wire_incoming (g : TierkreisGraph) (n : NodeRef) (kwargs : list (string * Incoming))
  : Result TierkreisGraph :=
  match kwargs with
  | [] => Ok g
  | (k, FromPort p) :: kw =>
      rbind (add_edge g p (mkNodePort n k)) (fun g' => wire_incoming g' n kw)
  | (k, Supplied v) :: kw =>
      let '(c, g1) := add_const g v in
      rbind (add_edge g1 (getport c "value") (mkNodePort n k))
            (fun g' => wire_incoming g' n kw)
  end.

(** Modelled from the spec: a builder call with keyword arguments adds
    its node, which takes the next free index, and then wires the
    arguments to it. *)
Definition add_entry (g : TierkreisGraph) (node : Node) (kwargs : list (string * Incoming))
  : Result (NodeRef * TierkreisGraph) :=
  let n := NodeIdx (length (graph_nodes g)) in
  rbind (wire_incoming (mkGraph (graph_nodes g ++ [node]) (graph_edges g)) n kwargs)
        (fun g' => Ok (n, g')).

(** Modelled from the spec: [graph.add_node(name, **kwargs)] adds a node
    for the operation [name]. *)
Definition add_node (g : TierkreisGraph) (name : string) (kwargs : list (string * Incoming))
  : Result (NodeRef * TierkreisGraph) :=
  add_entry g (FunctionNode name) kwargs.

(** Modelled from the spec: [graph.add_box(sub, name, **kwargs)] adds a
    boxed node that carries the graph [sub]. *)
Definition add_box (g : TierkreisGraph) (sub : TierkreisGraph) (name : string)
    (kwargs : list (string * Incoming)) : Result (NodeRef * TierkreisGraph) :=
  add_entry g (BoxNode sub name) kwargs.

(** Modelled from the spec: [graph.set_outputs] with keyword arguments
    wires each argument to the port of that name on the boundary output
    node. *)
Fixpoint set_outputs (g : TierkreisGraph) (kwargs : list (string * NodePort))
  : Result TierkreisGraph :=
  match kwargs with
  | [] => Ok g
  | (k, p) :: kw =>
      rbind (add_edge g p (mkNodePort OutputRef k)) (fun g' => set_outputs g' kw)
  end.

(** [make_outports] *)
Definition make_outports (node_ref : NodeRef) (ports : list string) : list NodePort :=
  map (getport node_ref) ports.

(** A call [f(k1=v1, ..., **extra)]: a key of [extra] that repeats an
    explicit keyword is a [TypeError]. *)
Definition call_kwargs (explicit extra : list (string * Incoming))
  : Result (list (string * Incoming)) :=
  match filter (fun k => k ∈ map fst explicit) (map fst extra) with
  | [] => Ok (explicit ++ extra)
  | k :: _ => Raise (TypeError ("got multiple values for keyword argument '" +:+ k +:+ "'"))
  end.

Definition from_ports (d : list (string * NodePort)) : list (string * Incoming) :=
  map (fun kv => (kv.1, FromPort kv.2)) d.

(** ** The visitor *)

(** [class TkslTopVisitor]: the three attributes set by [__init__]. *)
Record TkslTopVisitor := mkVisitor {
  self_sig : RuntimeSignature;
  self_context : Context;
  self_graph : TierkreisGraph
}.

(** [TkslTopVisitor.__init__] *)
Definition new_visitor (signature : RuntimeSignature) (context : Context) : TkslTopVisitor :=
  mkVisitor signature (copy context) empty_graph.

(** A method of the visitor: it reads and updates the visitor's attributes
    and returns a value or raises. *)
Definition M (A : Type) : Type := TkslTopVisitor -> Result (A * TkslTopVisitor).

Definition ret {A} (a : A) : M A := fun self => Ok (a, self).

Definition bind {A B} (m : M A) (k : A -> M B) : M B :=
  fun self =>
    match m self with
    | Ok (a, self') => k a self'
    | Raise e => Raise e
    end.

Definition raise {A} (e : Error) : M A := fun _ => Raise e.

Definition lift {A} (r : Result A) : M A :=
  fun self => match r with Ok a => Ok (a, self) | Raise e => Raise e end.

Declare Scope visitor_scope.
Delimit Scope visitor_scope with visitor.
Notation "'let*' x ':=' m 'in' k" := (bind m (fun x => k))
  (at level 10, x pattern, m at level 100, k at level 200) : visitor_scope.
Open Scope visitor_scope.

Definition get_context : M Context := fun self => Ok (self_context self, self).
Definition get_graph : M TierkreisGraph := fun self => Ok (self_graph self, self).
Definition get_sig : M RuntimeSignature := fun self => Ok (self_sig self, self).

Definition put_context (c : Context) : M unit :=
  fun self => Ok (tt, mkVisitor (self_sig self) c (self_graph self)).
Definition put_graph (g : TierkreisGraph) : M unit :=
  fun self => Ok (tt, mkVisitor (self_sig self) (self_context self) g).

Section MapM.
Context {A B : Type} (f : A -> M B).

(** [list(map(f, l))] for a method [f]. *)
Fixpoint mapM (l : list A) : M (list B) :=
  match l with
  | [] => ret []
  | a :: l' => let* b := f a in let* bs := mapM l' in ret (b :: bs)
  end.
End MapM.

(** Builder calls on [self.graph]. *)
Definition graph_add_const (v : Value) : M NodeRef :=
  let* g := get_graph in
  let '(n, g') := add_const g v in
  let* _ := put_graph g' in ret n.

Definition graph_add_node (name : string) (kwargs : list (string * Incoming)) : M NodeRef :=
  let* g := get_graph in
  let* (n, g') := lift (add_node g name kwargs) in
  let* _ := put_graph g' in ret n.

Definition graph_add_box (sub : TierkreisGraph) (name : string)
    (kwargs : list (string * Incoming)) : M NodeRef :=
  let* g := get_graph in
  let* (n, g') := lift (add_box g sub name kwargs) in
  let* _ := put_graph g' in ret n.

Definition graph_set_outputs (kwargs : list (string * NodePort)) : M unit :=
  let* g := get_graph in
  let* g' := lift (set_outputs g kwargs) in
  put_graph g'.

Definition graph_add_edge (src tgt : NodePort) : M TierkreisEdge :=
  let* g := get_graph in
  let* g' := lift (add_edge g src tgt) in
  let* _ := put_graph g' in ret (mkEdge src tgt).

(** Assignments to the tables of [self.context]. *)
Definition set_output_var (target : string) (r : NodeRef * FunctionDefinition) : M unit :=
  let* c := get_context in
  put_context (mkContext (functions c) (<[target := r]> (output_vars c)) (constants c)
                         (inputs c) (outputs c) (aliases c)).

Definition set_constant (target : string) (n : NodeRef) : M unit :=
  let* c := get_context in
  put_context (mkContext (functions c) (output_vars c) (<[target := n]> (constants c))
                         (inputs c) (outputs c) (aliases c)).

Definition set_function (name : string) (r : TierkreisGraph * FunctionDefinition) : M unit :=
  let* c := get_context in
  put_context (mkContext (<[name := r]> (functions c)) (output_vars c) (constants c)
                         (inputs c) (outputs c) (aliases c)).

Definition set_alias (name : string) (ty : TierkreisType) : M unit :=
  let* c := get_context in
  put_context (mkContext (functions c) (output_vars c) (constants c)
                         (inputs c) (outputs c) (<[name := ty]> (aliases c))).

(** [visitBool_token]: the tree is represented by whether it holds [TRUE]. *)
Definition visitBool_token (has_TRUE : bool) : bool :=
  if has_TRUE then true else false.

(** [visitInport] *)
Definition visitInport (id : string) : string := id.

(** [visitPort_label] *)
Definition visitPort_label (ctx : Port_label) : M NodePort :=
  let var_name := pl_var ctx in
  let port_name := pl_port ctx in
  let* c := get_context in
  let* (noderef, _) := lift (subscript (output_vars c !! var_name) var_name) in
  ret (mkNodePort noderef port_name).

(** [visitF_name]: the lookup in the signature raises [KeyError] when the
    namespace or the name is absent; the handler then tries the local
    functions. *)
Definition visitF_name (ctx : F_name) : M (string * FunctionDefinition) :=
  let func_name := fn_func_name ctx in
  let namespace := default "builtin" (fn_namespace ctx) in
  let* sg := get_sig in
  match sg !! namespace ≫= (fun ns => ns !! func_name) with
  | Some tkfunc => ret (tf_name tkfunc, def_from_tkfunc tkfunc)
  | None =>
      let* c := get_context in
      match functions c !! func_name with
      | Some (_, fdef) => ret (func_name, fdef)
      | None => raise (RuntimeError ("Function name not found: " +:+ func_name))
      end
  end.

(** [visitThunkable_port] *)
Definition visitThunkable_port (ctx : Thunkable_port) : M (list NodePort) :=
  match ctx with
  | ThunkPortLabel pl => let* p := visitPort_label pl in ret [p]
  | ThunkID name =>
      let* c := get_context in
      if OrderedDict.contains name (inputs c) then ret [getport graph_input name]
      else match output_vars c !! name with
      | Some (node_ref, func) => ret (make_outports node_ref (fd_outputs func))
      | None =>
      match functions c !! name with
      | Some (grap, _) =>
          let* const_node := graph_add_const (VGraph grap) in
          ret [getport const_node "value"]
      | None =>
      match constants c !! name with
      | Some const_node => ret [getport const_node "value"]
      | None => raise (RuntimeError ("Name not found in scope: " +:+ name +:+ "."))
      end end end
  | ThunkNeither => raise (RuntimeError "")
  end.

(** [str(token)[1:-1]] *)
Definition strip_ends (s : string) : string :=
  substring 1 (String.length s - 2) s.

(** [keyword.kwlist]: the reserved words of Python. *)
Definition kwlist : list string :=
  ["False"; "None"; "True"; "and"; "as"; "assert"; "async"; "await"; "break";
   "class"; "continue"; "def"; "del"; "elif"; "else"; "except"; "finally"; "for";
   "from"; "global"; "if"; "import"; "in"; "is"; "lambda"; "nonlocal"; "not"; "or";
   "pass"; "raise"; "return"; "try"; "while"; "with"; "yield"].

(** [make_dataclass("anon_struct", fields=fields.keys(), ...)] followed by
    [cl( **fields)]: the class is refused with a [TypeError] when a field
    name is a reserved word, the first such name in the order of the
    fields being reported; otherwise the instance is the record of the
    fields in insertion order.  (The names are [ID] tokens, hence
    identifiers, and the keys of a dictionary, hence distinct, so the two
    other checks of [make_dataclass] on field names cannot fail.) *)
Definition make_struct (fields : list (string * Value)) : Result Value :=
  match filter (fun name => name ∈ kwlist) (OrderedDict.keys fields) with
  | [] => Ok (VStruct fields)
  | name :: _ =>
      Raise (TypeError ("Field names must not be keywords: '" +:+ name +:+ "'"))
  end.

(** [visitConst_] with [visitConst_assign] for the fields of a struct: the
    elements of a vector and the fields of a struct are visited in order,
    the fields are collected in a dictionary, and the struct is built from
    it. *)
Fixpoint visitConst_ (ctx : Const_) : Result Value :=
  match ctx with
  | ConstInt z => Ok (VInt z)
  | ConstBool tok => Ok (VBool (visitBool_token tok))
  | ConstFloat lexeme => Ok (VFloat lexeme)
  | ConstString lexeme => Ok (VStr (strip_ends lexeme))
  | ConstVec elems => rbind (map_result visitConst_ elems) (fun vs => Ok (VList vs))
  | ConstStruct _ fields =>
      rbind (map_result (fun kv => let '(k, c) := kv in
                           rbind (visitConst_ c) (fun v => Ok (k, v)))
                        fields)
            (fun items => make_struct (OrderedDict.of_items items))
  | ConstNeither => Ok VNone
  end.


(** [visitPort_map], [visitPositional_args] and [visitNamed_map], over the
    method for [outport] they call. *)
Section OverOutport.
Variable visitOutport : Outport -> M (list NodePort).

Definition visitPort_map_over (ctx : string * Outport) : M (string * NodePort) :=
  let '(inport, outport) := ctx in
  let* ports := visitOutport outport in
  let* p := lift (first_item ports) in
  ret (visitInport inport, p).

Definition visitPositional_args_over (arg_l : list Outport) : M (list NodePort) :=
  let* pss := mapM visitOutport arg_l in ret (concat pss).

Definition visitNamed_map_over (port_l : Named_map) : M (list (string * NodePort)) :=
  let* items := mapM visitPort_map_over port_l in ret (OrderedDict.of_items items).
End OverOutport.

(** [zip(a, b)] *)
Fixpoint zip {A B} (a : list A) (b : list B) : list (A * B) :=
  match a, b with
  | x :: a', y :: b' => (x, y) :: zip a' b'
  | _, _ => []
  end.

(** [visitOutport], [visitFuncCall] and [visitThunk] (the two alternatives
    of [node_inputs]), and [visitArglist], which receives
    [ctx.expected_ports] as an argument. *)
Fixpoint visitOutport (ctx : Outport) : M (list NodePort) :=
  match ctx with
  | OutThunkable tp => visitThunkable_port tp
  | OutNodeInputs call =>
      let* (node_ref, fn) := visitNode_inputs call in
      ret (make_outports node_ref (fd_outputs fn))
  | OutConst c =>
      let* const_val := lift (visitConst_ c) in
      let* node_ref := graph_add_const const_val in
      ret [getport node_ref "value"]
  | OutNeither => raise (RuntimeError "")
  end
with visitNode_inputs (ctx : Node_inputs) : M (NodeRef * FunctionDefinition) :=
  match ctx with
  | FuncCall f args =>
      let* (f_name, f_def) := visitF_name f in
      let* arglist := match args with
                 | Some argctx => visitArglist argctx (fd_inputs f_def)
                 | None => raise AttributeError
                 end in
      let* c := get_context in
      let* noderef := match functions c !! f_name with
                 | Some (grap, _) => graph_add_box grap f_name (from_ports arglist)
                 | None => graph_add_node f_name (from_ports arglist)
                 end in
      ret (noderef, f_def)
  | Thunk tp named =>
      let* ports := visitThunkable_port tp in
      let* outport := lift (first_item ports) in
      let* arglist := match named with
                 | Some nm => visitNamed_map_over visitOutport nm
                 | None => ret []
                 end in
      let* kwargs := lift (call_kwargs [("thunk", FromPort outport)] (from_ports arglist)) in
      let* eval_n := graph_add_node "builtin/eval" kwargs in
      let* sg := get_sig in
      let* builtin := lift (subscript (sg !! "builtin") "builtin") in
      let* eval_f := lift (subscript (builtin !! "eval") "eval") in
      ret (eval_n, def_from_tkfunc eval_f)
  end
with visitArglist (ctx : Arglist) (expected_ports : list string)
  : M (list (string * NodePort)) :=
  match ctx with
  | ArgNamed port_l => visitNamed_map_over visitOutport port_l
  | ArgPositional arg_l =>
      let* ports := visitPositional_args_over visitOutport arg_l in
      ret (OrderedDict.of_items (zip expected_ports ports))
  | ArgNeither => raise (RuntimeError "")
  end.

Definition visitPort_map := visitPort_map_over visitOutport.
Definition visitPositional_args := visitPositional_args_over visitOutport.
Definition visitNamed_map := visitNamed_map_over visitOutport.

Definition visitFuncCall (f : F_name) (args : option Arglist) := visitNode_inputs (FuncCall f args).
Definition visitThunk (tp : Thunkable_port) (named : option Named_map) :=
  visitNode_inputs (Thunk tp named).

(** The context handed to the sub-visitors of an [if] or a [loop]:
    [Context()] with [functions] assigned a copy of the enclosing table and
    [inputs] assigned [OrderedDict({inp: None for inp in inputs})]. *)
Definition nested_context (enclosing : Context) (inps : list (string * NodePort)) : Context :=
  mkContext (functions enclosing) ∅ ∅
            (map (fun inp => (inp, None)) (OrderedDict.keys inps)) [] ∅.

(** [set(a).union(b)], then iterated: a set of strings has no order of its
    own; [elements] fixes one, without repetitions. *)
Definition union_names (a b : list string) : list string :=
  elements ((list_to_set a : gset string) ∪ list_to_set b).

(** [FunctionDefinition(list(ctx.inputs), list(ctx.outputs))] for the
    nested context once its [outputs] are assigned
    [OrderedDict({outp: None for outp in names})]. *)
Definition fake_func (nested : Context) (names : list string) : FunctionDefinition :=
  let outs : PortMap := OrderedDict.of_items (map (fun outp => (outp, None)) names) in
  mkFunctionDefinition (OrderedDict.keys (inputs nested)) (OrderedDict.keys outs) None.

(** The methods for instructions, over the generic [visit] they call on the
    instructions of a block. *)
Section OverInst.
Variable visit : Inst -> M unit.

(** [visitCode_block] *)
Definition visitCode_block_over (inst_list : Code_block) : M TierkreisGraph :=
  let* _ := mapM visit inst_list in get_graph.

(** [TkslTopVisitor(self.sig, context).visitCode_block(block)]: a new
    visitor lowers the block into a graph of its own. *)
Definition sub_visit (context : Context) (block : Code_block) : M TierkreisGraph :=
  let* sg := get_sig in
  lift (match visitCode_block_over block (new_visitor sg context) with
        | Ok (g, _) => Ok g
        | Raise e => Raise e
        end).

(** [visitIfBlock] *)
Definition visitIfBlock_over (target : string) (condition : Outport)
    (inps : option Named_map) (if_block else_block : Code_block) : M unit :=
  let* ports := visitOutport condition in
  let* condition := lift (first_item ports) in
  let* inputs := match inps with
                 | Some nm => visitNamed_map nm
                 | None => ret []
                 end in
  let* c := get_context in
  let ifcontext := nested_context c inputs in
  let* if_g := sub_visit ifcontext if_block in
  let* else_g := sub_visit ifcontext else_block in
  let* sw_nod := graph_add_node "builtin/switch"
                   [("pred", FromPort condition);
                    ("if_true", Supplied (VGraph if_g));
                    ("if_false", Supplied (VGraph else_g))] in
  let* kwargs := lift (call_kwargs [("thunk", FromPort (getport sw_nod "value"))]
                                   (from_ports inputs)) in
  let* eval_n := graph_add_node "builtin/eval" kwargs in
  let output_names := union_names (graph_outputs if_g) (graph_outputs else_g) in
  set_output_var target (eval_n, fake_func ifcontext output_names).

(** [visitLoop] *)
Definition visitLoop_over (target : string) (inps : option Named_map)
    (body condition : Code_block) : M unit :=
  let* inputs := match inps with
                 | Some nm => visitNamed_map nm
                 | None => ret []
                 end in
  let* c := get_context in
  let loopcontext := nested_context c inputs in
  let* body_g := sub_visit loopcontext body in
  let* condition_g := sub_visit loopcontext condition in
  let* kwargs := lift (call_kwargs [("condition", Supplied (VGraph condition_g));
                                    ("body", Supplied (VGraph body_g))]
                                   (from_ports inputs)) in
  let* loop_nod := graph_add_node "builtin/loop" kwargs in
  set_output_var target (loop_nod, fake_func loopcontext (graph_outputs body_g)).
End OverInst.

(** [visitCallMap] *)
Definition visitCallMap (target : string) (call : Node_inputs) : M unit :=
  let* r := visitNode_inputs call in
  set_output_var target r.

(** [visitOutputCall] *)
Definition visitOutputCall (args : option Arglist) : M unit :=
  match args with
  | None => raise AttributeError
  | Some argctx =>
      let* c := get_context in
      let* kwargs := visitArglist argctx (OrderedDict.keys (outputs c)) in
      graph_set_outputs kwargs
  end.

(** [visitConstDecl] *)
Definition visitConstDecl (target : string) (c : Const_) : M unit :=
  let* const_val := lift (visitConst_ c) in
  let* n := graph_add_const const_val in
  set_constant target n.

(** [visitEdge] *)
Definition visitEdge (source target : Port_label) : M TierkreisEdge :=
  let* src := visitPort_label source in
  let* tgt := visitPort_label target in
  graph_add_edge src tgt.

(** [visit] on an instruction dispatches on the alternative. *)
Fixpoint visit (ctx : Inst) : M unit :=
  match ctx with
  | ConstDecl const_name c => visitConstDecl const_name c
  | CallMap target call => visitCallMap target call
  | IfBlock target condition inps if_block else_block =>
      visitIfBlock_over visit target condition inps if_block else_block
  | Loop target inps body condition =>
      visitLoop_over visit target inps body condition
  | OutputCall args => visitOutputCall args
  | Edge source target => let* _ := visitEdge source target in ret tt
  end.

Definition visitCode_block := visitCode_block_over visit.
Definition visitIfBlock := visitIfBlock_over visit.
Definition visitLoop := visitLoop_over visit.

(** ** Types and declarations *)

Section Types.
(** [self.context.aliases], which the methods for types only read. *)
Variable alias_table : gmap string TierkreisType.

(** [visitType_], [visitGraph_type] and [visitF_param_list]; the
    parameters are all visited before the ordered mapping is built. *)
Fixpoint visitType_ (ctx : Type_) : Result TierkreisType :=
  match ctx with
  | TypeInt => Ok IntType
  | TypeBool => Ok BoolType
  | TypeStr => Ok StringType
  | TypeFloat => Ok FloatType
  | TypePair first second =>
      rbind (visitType_ first) (fun a =>
      rbind (visitType_ second) (fun b => Ok (PairType a b)))
  | TypeMap key val =>
      rbind (visitType_ key) (fun k =>
      rbind (visitType_ val) (fun v => Ok (MapType k v)))
  | TypeVec element => rbind (visitType_ element) (fun e => Ok (VecType e))
  | TypeStruct fields =>
      rbind (map_result (fun p => let '(label, annotation) := p in
                           rbind (visitType_ annotation) (fun ty => Ok (label, ty)))
                        fields)
            (fun items => Ok (StructType (OrderedDict.of_items items)))
  | TypeGraph g =>
      rbind (visitGraph_type g) (fun fdef =>
        match fd_graph_type fdef with
        | Some g_type => Ok (type_of_graph_type g_type)
        | None => Raise AssertionError
        end)
  | TypeID id => subscript (alias_table !! id) id
  | TypeNeither => Ok (VarType "unkown")
  end
with visitGraph_type (ctx : Graph_type) : Result FunctionDefinition :=
  match ctx with
  | mkGraph_type par_in par_out =>
      let params := map_result (fun p => let '(label, annotation) := p in
                      rbind (visitType_ annotation) (fun ty => Ok (label, ty))) in
      rbind (params par_in) (fun items_in =>
      rbind (params par_out) (fun items_out =>
        let inputs := OrderedDict.of_items items_in in
        let outputs := OrderedDict.of_items items_out in
        Ok (mkFunctionDefinition (OrderedDict.keys inputs) (OrderedDict.keys outputs)
                                 (Some (mkGraphType inputs outputs)))))
  end.

(** [visitF_param] and [visitF_param_list] *)
Definition visitF_param (ctx : string * Type_) : Result (string * TierkreisType) :=
  let '(label, annotation) := ctx in
  rbind (visitType_ annotation) (fun ty => Ok (label, ty)).

Definition visitF_param_list (par_list : list (string * Type_)) : Result Row :=
  rbind (map_result visitF_param par_list) (fun items => Ok (OrderedDict.of_items items)).
End Types.

(** [OrderedDict((key, row.content[key]) for key in names)] *)
Definition ports_of_row (names : list string) (content : Row) : PortMap :=
  OrderedDict.of_items (map (fun key => (key, OrderedDict.getitem key content)) names).

(** The context in which the body of a function definition is lowered: a
    copy of the current one with [inputs] and [outputs] taken from the
    definition's type. *)
Definition funcdef_context (current : Context) (f_def : FunctionDefinition) : Context :=
  let context := copy current in
  match fd_graph_type f_def with
  | Some gty =>
      mkContext (functions context) (output_vars context) (constants context)
                (ports_of_row (fd_inputs f_def) (gt_inputs gty))
                (ports_of_row (fd_outputs f_def) (gt_outputs gty))
                (aliases context)
  | None => context
  end.

(** [visitFuncDef] *)
Definition visitFuncDef (name : string) (gt : Graph_type) (code_block : Code_block) : M unit :=
  let* c := get_context in
  let* f_def := lift (visitGraph_type (aliases c) gt) in
  let context := funcdef_context c f_def in
  let* graph := sub_visit visit context code_block in
  set_function name (graph, f_def).

(** [visitTypeAlias] *)
Definition visitTypeAlias (id : string) (ty : Type_) : M unit :=
  let* c := get_context in
  let* t := lift (visitType_ (aliases c) ty) in
  set_alias id t.

(** [visit] on a declaration: a type alias or a function definition.
    ([visitDeclaration] has the same two effects, the assignment of the
    alias and the visit of the children.) *)
Definition visit_declaration (d : Declaration) : M unit :=
  match d with
  | TypeAlias id ty => visitTypeAlias id ty
  | FuncDef id gt code_block => visitFuncDef id gt code_block
  end.

(** [visitStart] *)
Definition visitStart (decs : list Declaration) : M TierkreisGraph :=
  let* _ := mapM visit_declaration decs in
  let* c := get_context in
  let* main := lift (subscript (functions c !! "main") "main") in
  ret main.1.

(** [TkslTopVisitor(sig, Context()).visitStart(tree)], as in [main]. *)
Definition compile (sg : RuntimeSignature) (decs : list Declaration) : Result TierkreisGraph :=
  match visitStart decs (new_visitor sg empty_context) with
  | Ok (g, _) => Ok g
  | Raise e => Raise e
  end.

(** ** Notions used in the statements *)

(** [g'] has the nodes and edges of [g], followed by further ones. *)
Definition extends (g g' : TierkreisGraph) : Prop :=
  exists ns es,
    graph_nodes g' = graph_nodes g ++ ns /\ graph_edges g' = graph_edges g ++ es.

(** A method has the frame property when a successful run keeps the
    signature and the context of the visitor and only appends nodes and
    edges to its graph. *)
Definition frame {A} (m : M A) : Prop :=
  forall self a self1,
    m self = Ok (a, self1) ->
    self_sig self1 = self_sig self /\
    self_context self1 = self_context self /\
    extends (self_graph self) (self_graph self1).

(** The constant nodes a builder call adds for the values among its
    keyword arguments. *)
Fixpoint incoming_consts (kwargs : list (string * Incoming)) : list Node :=
  match kwargs with
  | [] => []
  | (_, FromPort _) :: kw => incoming_consts kw
  | (_, Supplied v) :: kw => ConstNode v :: incoming_consts kw
  end.

(** The edges a builder call adds into its node [n] for its keyword
    arguments, when the first constant node it makes takes index [next]. *)
Fixpoint incoming_edges (next : nat) (n : NodeRef) (kwargs : list (string * Incoming))
  : list TierkreisEdge :=
  match kwargs with
  | [] => []
  | (k, FromPort p) :: kw => mkEdge p (mkNodePort n k) :: incoming_edges next n kw
  | (k, Supplied _) :: kw =>
      mkEdge (mkNodePort (NodeIdx next) "value") (mkNodePort n k)
      :: incoming_edges (S next) n kw
  end.

(** The edges that bind a named map to the input ports of node [n]. *)
Definition edges_of_named (n : NodeRef) (d : list (string * NodePort)) : list TierkreisEdge :=
  map (fun kv => mkEdge kv.2 (mkNodePort n kv.1)) d.

(** The context of the visitor with [target] bound to a call result. *)
Definition bind_target (c : Context) (target : string) (r : NodeRef * FunctionDefinition)
  : Context :=
  mkContext (functions c) (<[target := r]> (output_vars c)) (constants c)
            (inputs c) (outputs c) (aliases c).

(** [block] is lowered by a new visitor created with [context], and yields
    the graph [g]. *)
Definition lowered_in (sg : RuntimeSignature) (context : Context) (block : Code_block)
    (g : TierkreisGraph) : Prop :=
  exists final, visitCode_block block (mkVisitor sg context empty_graph) = Ok (g, final).

(** The name is an entry of the catalog, under its namespace or under
    [builtin] when it has none. *)
Definition in_catalog (sg : RuntimeSignature) (f : F_name) : Prop :=
  exists ns tk,
    sg !! default "builtin" (fn_namespace f) = Some ns /\ ns !! fn_func_name f = Some tk.

(** Induction over expressions: an [outport] may hold a call, whose
    arguments are lists of [outport]s again. *)
Section OutportInduction.
Variables (P : Outport -> Prop) (Q : Node_inputs -> Prop) (R : Arglist -> Prop).
Hypothesis case_thunkable : forall tp, P (OutThunkable tp).
Hypothesis case_node_inputs : forall call, Q call -> P (OutNodeInputs call).
Hypothesis case_const : forall c, P (OutConst c).
Hypothesis case_out_neither : P OutNeither.
Hypothesis case_func_call :
  forall f args, from_option R True args -> Q (FuncCall f args).
Hypothesis case_thunk :
  forall tp named,
    from_option (Forall (fun kv => P kv.2)) True named -> Q (Thunk tp named).
Hypothesis case_named :
  forall port_l, Forall (fun kv => P kv.2) port_l -> R (ArgNamed port_l).
Hypothesis case_positional :
  forall arg_l, Forall P arg_l -> R (ArgPositional arg_l).
Hypothesis case_arg_neither : R ArgNeither.

Fixpoint Outport_mut (o : Outport) : P o :=
  match o with
  | OutThunkable tp => case_thunkable tp
  | OutNodeInputs call => case_node_inputs call (Node_inputs_mut call)
  | OutConst c => case_const c
  | OutNeither => case_out_neither
  end
with Node_inputs_mut (c : Node_inputs) : Q c :=
  match c with
  | FuncCall f args =>
      case_func_call f args
        (match args as o return from_option R True o with
         | Some a => Arglist_mut a
         | None => I
         end)
  | Thunk tp named =>
      case_thunk tp named
        (match named as o return from_option (Forall (fun kv => P kv.2)) True o with
         | Some nm =>
             (fix go (l : list (string * Outport)) : Forall (fun kv => P kv.2) l :=
                match l with
                | [] => List.Forall_nil _
                | kv :: l' =>
                    @List.Forall_cons _ (fun kv => P kv.2) kv l'
                      (match kv as p return P p.2 with (_, o) => Outport_mut o end)
                      (go l')
                end) nm
         | None => I
         end)
  end
with Arglist_mut (a : Arglist) : R a :=
  match a with
  | ArgNamed port_l =>
      case_named port_l
        ((fix go (l : list (string * Outport)) : Forall (fun kv => P kv.2) l :=
            match l with
            | [] => List.Forall_nil _
            | kv :: l' =>
                @List.Forall_cons _ (fun kv => P kv.2) kv l'
                  (match kv as p return P p.2 with (_, o) => Outport_mut o end)
                  (go l')
            end) port_l)
  | ArgPositional arg_l =>
      case_positional arg_l
        ((fix go (l : list Outport) : Forall P l :=
            match l with
            | [] => List.Forall_nil _
            | o :: l' => @List.Forall_cons _ P o l' (Outport_mut o) (go l')
            end) arg_l)
  | ArgNeither => case_arg_neither
  end.
End OutportInduction.

(** The names of the function definitions among declarations, in order. *)
Definition funcdef_names (decs : list Declaration) : list string :=
  omap (fun d => match d with
                 | FuncDef id _ _ => Some id
                 | TypeAlias _ _ => None
                 end) decs.

(** From [self] to [self1] the visitor keeps its signature and the
    functions, inputs, outputs and aliases of its context, keeps every
    bound call result and constant bound (to the same or to a new node),
    and keeps the nodes and edges of its graph, with new ones after them. *)
Definition grows (self self1 : TkslTopVisitor) : Prop :=
  self_sig self1 = self_sig self /\
  functions (self_context self1) = functions (self_context self) /\
  inputs (self_context self1) = inputs (self_context self) /\
  outputs (self_context self1) = outputs (self_context self) /\
  aliases (self_context self1) = aliases (self_context self) /\
  (forall x, is_Some (output_vars (self_context self) !! x) ->
             is_Some (output_vars (self_context self1) !! x)) /\
  (forall x, is_Some (constants (self_context self) !! x) ->
             is_Some (constants (self_context self1) !! x)) /\
  extends (self_graph self) (self_graph self1).

(** The edge does not end at the boundary output node. *)
Definition inner_edge (e : TierkreisEdge) : Prop := np_node (edge_target e) <> OutputRef.

(** [g'] has the nodes and edges of [g], followed by further nodes and by
    further edges none of which ends at the boundary output node. *)
Definition extends_inside (g g' : TierkreisGraph) : Prop :=
  exists ns es,
    graph_nodes g' = graph_nodes g ++ ns /\ graph_edges g' = graph_edges g ++ es /\
    Forall inner_edge es.

(** A method that, when it succeeds, only extends the graph inside. *)
Definition works_inside {A} (m : M A) : Prop :=
  forall self a self1, m self = Ok (a, self1) ->
    extends_inside (self_graph self) (self_graph self1).

(** Induction over type expressions: a struct and a graph type hold lists
    of parameters, each with a type expression again. *)
Section Type_Induction.
Variables (P : Type_ -> Prop) (Q : Graph_type -> Prop).
Hypothesis case_int : P TypeInt.
Hypothesis case_bool : P TypeBool.
Hypothesis case_str : P TypeStr.
Hypothesis case_float : P TypeFloat.
Hypothesis case_pair : forall a b, P a -> P b -> P (TypePair a b).
Hypothesis case_map : forall k v, P k -> P v -> P (TypeMap k v).
Hypothesis case_vec : forall e, P e -> P (TypeVec e).
Hypothesis case_struct :
  forall fields, Forall (fun p => P p.2) fields -> P (TypeStruct fields).
Hypothesis case_graph : forall g, Q g -> P (TypeGraph g).
Hypothesis case_id : forall id, P (TypeID id).
Hypothesis case_type_neither : P TypeNeither.
Hypothesis case_graph_type :
  forall par_in par_out,
    Forall (fun p => P p.2) par_in -> Forall (fun p => P p.2) par_out ->
    Q (mkGraph_type par_in par_out).

Fixpoint Type_mut (ty : Type_) : P ty :=
  match ty with
  | TypeInt => case_int
  | TypeBool => case_bool
  | TypeStr => case_str
  | TypeFloat => case_float
  | TypePair a b => case_pair a b (Type_mut a) (Type_mut b)
  | TypeMap k v => case_map k v (Type_mut k) (Type_mut v)
  | TypeVec e => case_vec e (Type_mut e)
  | TypeStruct fields =>
      case_struct fields
        ((fix go (l : list (string * Type_)) : Forall (fun p => P p.2) l :=
            match l with
            | [] => List.Forall_nil _
            | p :: l' =>
                @List.Forall_cons _ (fun p => P p.2) p l'
                  (match p as q return P q.2 with (_, t) => Type_mut t end)
                  (go l')
            end) fields)
  | TypeGraph g => case_graph g (Graph_type_mut g)
  | TypeID id => case_id id
  | TypeNeither => case_type_neither
  end
with Graph_type_mut (g : Graph_type) : Q g :=
  match g with
  | mkGraph_type par_in par_out =>
      case_graph_type par_in par_out
        ((fix go (l : list (string * Type_)) : Forall (fun p => P p.2) l :=
            match l with
            | [] => List.Forall_nil _
            | p :: l' =>
                @List.Forall_cons _ (fun p => P p.2) p l'
                  (match p as q return P q.2 with (_, t) => Type_mut t end)
                  (go l')
            end) par_in)
        ((fix go (l : list (string * Type_)) : Forall (fun p => P p.2) l :=
            match l with
            | [] => List.Forall_nil _
            | p :: l' =>
                @List.Forall_cons _ (fun p => P p.2) p l'
                  (match p as q return P q.2 with (_, t) => Type_mut t end)
                  (go l')
            end) par_out)
  end.
End Type_Induction.

(** The alias names that a type expression looks up, in the order in which
    [visitType_] reaches them. *)
Fixpoint type_ids (ty : Type_) : list string :=
  match ty with
  | TypeInt | TypeBool | TypeStr | TypeFloat | TypeNeither => []
  | TypePair first second => type_ids first ++ type_ids second
  | TypeMap key val => type_ids key ++ type_ids val
  | TypeVec element => type_ids element
  | TypeStruct fields =>
      flat_map (fun p => let '(_, annotation) := p in type_ids annotation) fields
  | TypeGraph g => graph_type_ids g
  | TypeID id => [id]
  end
with graph_type_ids (g : Graph_type) : list string :=
  match g with
  | mkGraph_type par_in par_out =>
      flat_map (fun p => let '(_, annotation) := p in type_ids annotation) par_in
      ++ flat_map (fun p => let '(_, annotation) := p in type_ids annotation) par_out
  end.

Definition param_ids (p : string * Type_) : list string := type_ids p.2.

(** [id not in self.context.aliases] *)
Definition undeclared (al : gmap string TierkreisType) (id : string) : bool :=
  match al !! id with
  | Some _ => false
  | None => true
  end.

(** What visiting a type does when [missing] is the first alias it reaches
    that is not declared: [KeyError] for it, a result when there is none. *)
Definition resolves_or_raises {A} (r : Result A) (missing : option string) : Prop :=
  match missing with
  | Some id => r = Raise (KeyError id)
  | None => exists a, r = Ok a
  end.

(** The first alias that a type expression reaches and that is not declared. *)
Definition first_undeclared (al : gmap string TierkreisType) (ty : Type_) : option string :=
  List.find (undeclared al) (type_ids ty).

(** ** Sample programs *)

Module Samples.
(** A catalog with [builtin.iadd : (a, b) -> (c)], a two-output
    [builtin.divmod] and the [builtin] operations of nested blocks. *)
Definition catalog : RuntimeSignature :=
  {[ "builtin" :=
       {[ "iadd" := mkTierkreisFunction "builtin/iadd" ["a"; "b"] ["c"];
          "divmod" := mkTierkreisFunction "builtin/divmod" ["a"; "b"] ["q"; "r"];
          "eval" := mkTierkreisFunction "builtin/eval" ["thunk"] [];
          "switch" := mkTierkreisFunction "builtin/switch"
                        ["pred"; "if_true"; "if_false"] ["value"];
          "loop" := mkTierkreisFunction "builtin/loop" ["condition"; "body"] [] ]} ]}.

Definition id_ (name : string) : Outport := OutThunkable (ThunkID name).
Definition dot (var port : string) : Outport :=
  OutThunkable (ThunkPortLabel (mkPort_label var port)).
Definition call (name : string) (args : Arglist) : Node_inputs :=
  FuncCall (mkF_name None name) (Some args).
Definition int_pair : list (string * Type_) := [("a", TypeInt); ("b", TypeInt)].

(** A visitor in the middle of a body: input [a], call result [s] of
    [iadd] at node 0, constant [k] at node 1, call result [d] of [divmod]
    at node 2, and a declared function [f]. *)
Definition in_body : TkslTopVisitor :=
  mkVisitor catalog
    (mkContext {[ "f" := (empty_graph, mkFunctionDefinition [] [] None) ]}
               {[ "s" := (NodeIdx 0, mkFunctionDefinition ["a"; "b"] ["c"] None);
                  "d" := (NodeIdx 2, mkFunctionDefinition ["a"; "b"] ["q"; "r"] None) ]}
               {[ "k" := NodeIdx 1 ]}
               [("a", Some IntType)] [("r", Some IntType)]
               {[ "T" := IntType ]})
    (mkGraph [FunctionNode "builtin/iadd"; ConstNode (VInt 7);
              FunctionNode "builtin/divmod"]
             [mkEdge (mkNodePort InputRef "a") (mkNodePort (NodeIdx 0) "a")]).

(** [main(a: Int, b: Int) -> (r: Int) { s = iadd(a = a, b = b);
    output(r = s.nope); }] *)
Definition unknown_port : list Declaration :=
  [FuncDef "main" (mkGraph_type int_pair [("r", TypeInt)])
     [CallMap "s" (call "iadd" (ArgNamed [("a", id_ "a"); ("b", id_ "b")]));
      OutputCall (Some (ArgNamed [("r", dot "s" "nope")]))]].

(** [main(a: Int, b: Int) -> (r: Int) { s = iadd(a); output(r = s.c); }] *)
Definition too_few : list Declaration :=
  [FuncDef "main" (mkGraph_type int_pair [("r", TypeInt)])
     [CallMap "s" (call "iadd" (ArgPositional [id_ "a"]));
      OutputCall (Some (ArgNamed [("r", dot "s" "c")]))]].

(** The parts of [r = if a (x = d) { output(v = x); }
    else { output(v = 2, w = x); }] *)
Definition if_inputs : option Named_map := Some [("x", id_ "d")].
Definition then_block : Code_block := [OutputCall (Some (ArgNamed [("v", id_ "x")]))].
Definition else_block : Code_block :=
  [OutputCall (Some (ArgNamed [("v", OutConst (ConstInt 2)); ("w", id_ "x")]))].

(** The parts of [r = loop (x = a) { y = iadd(x, 1); output(x = y.c); }
    while { output(pred = x); }] *)
Definition loop_inputs : option Named_map := Some [("x", id_ "a")].
Definition loop_body : Code_block :=
  [CallMap "y" (call "iadd" (ArgPositional [id_ "x"; OutConst (ConstInt 1)]));
   OutputCall (Some (ArgNamed [("x", dot "y" "c")]))].
Definition loop_condition : Code_block :=
  [OutputCall (Some (ArgNamed [("pred", id_ "x")]))].

(** The parts of [f(a: Int, a: Bool) -> (r: Int) { output(q = a); }] *)
Definition repeated_params : Graph_type :=
  mkGraph_type [("a", TypeInt); ("a", TypeBool)] [("r", TypeInt)].
Definition renamed_output : Code_block :=
  [OutputCall (Some (ArgNamed [("q", id_ "a")]))].

(** A visitor whose local functions table has an [iadd] of its own. *)
Definition local_iadd : TkslTopVisitor :=
  mkVisitor catalog
    (mkContext {[ "iadd" := (empty_graph, mkFunctionDefinition [] ["z"] None) ]}
               ∅ ∅ [] [] ∅)
    empty_graph.

(** [main(a: Int) -> (r: Int) { q = frobnicate(a); }] *)
Definition frobnicate : list Declaration :=
  [FuncDef "main" (mkGraph_type [("a", TypeInt)] [("r", TypeInt)])
     [CallMap "q" (call "frobnicate" (ArgPositional [id_ "a"]))]].
End Samples.

(** * Properties *)

(** ** Ordered dictionaries *)

Section DictFacts.
Context {V : Type}.
Implicit Types (d : list (string * V)) (k : string) (v : V).

Lemma eqb_decide k k' : String.eqb k k' = bool_decide (k = k').
Proof.
  destruct (String.eqb_spec k k'); symmetry;
    [apply bool_decide_eq_true_2 | apply bool_decide_eq_false_2]; done.
Qed.

Lemma keys_setitem_in k v d :
  k ∈ OrderedDict.keys d -> OrderedDict.keys (OrderedDict.setitem k v d) = OrderedDict.keys d.
Proof.
  induction d as [|[k' v'] d IH]; simpl; intros Hin.
  - by apply elem_of_nil in Hin.
  - rewrite eqb_decide. case_bool_decide as E; simpl; [by subst|].
    f_equal. apply IH. apply elem_of_cons in Hin as [?|?]; done.
Qed.

Lemma keys_setitem_notin k v d :
  k ∉ OrderedDict.keys d ->
  OrderedDict.keys (OrderedDict.setitem k v d) = OrderedDict.keys d ++ [k].
Proof.
  induction d as [|[k' v'] d IH]; simpl; intros Hin; [done|].
  rewrite eqb_decide. case_bool_decide as E; simpl.
  - subst. exfalso. apply Hin. left.
  - f_equal. apply IH. intros ?. apply Hin. by right.
Qed.

Lemma getitem_setitem k v d k' :
  OrderedDict.getitem k' (OrderedDict.setitem k v d)
  = if bool_decide (k' = k) then Some v else OrderedDict.getitem k' d.
Proof.
  induction d as [|[k0 v0] d IH]; simpl.
  - by rewrite eqb_decide.
  - rewrite (eqb_decide k k0). destruct (decide (k = k0)) as [->|Hne].
    + rewrite (bool_decide_eq_true_2 (k0 = k0)) by done. simpl.
      rewrite !eqb_decide. by case_bool_decide.
    + rewrite (bool_decide_eq_false_2 (k = k0)) by done. simpl.
      rewrite !eqb_decide, IH. repeat case_bool_decide; congruence.
Qed.

Lemma getitem_is_Some k d : is_Some (OrderedDict.getitem k d) <-> k ∈ OrderedDict.keys d.
Proof.
  induction d as [|[k' v'] d IH]; simpl.
  - split; [intros [? ?]; done | intros ?%elem_of_nil; done].
  - rewrite eqb_decide, elem_of_cons. case_bool_decide; simpl.
    + split; eauto.
    + rewrite IH. split; [by right | intros [?|?]; done].
Qed.

Lemma contains_keys k d : OrderedDict.contains k d = true <-> k ∈ OrderedDict.keys d.
Proof.
  unfold OrderedDict.contains. rewrite bool_decide_eq_true. apply getitem_is_Some.
Qed.

(** The keys of a dictionary grown from [d0] by a run of assignments. *)
Lemma keys_fold_setitem (items : list (string * V)) d0 :
  OrderedDict.keys (fold_left (fun d kv => OrderedDict.setitem kv.1 kv.2 d) items d0)
  = OrderedDict.keys d0 ++ first_occurrences (OrderedDict.keys d0) (map fst items).
Proof.
  revert d0. induction items as [|[k v] items IH]; intros d0; simpl.
  - by rewrite app_nil_r.
  - rewrite IH. case_bool_decide as Hin.
    + rewrite keys_setitem_in by done. done.
    + rewrite keys_setitem_notin by done. rewrite <- app_assoc. simpl.
      f_equal. f_equal.
      assert (Hgen : forall l s1 s2, (forall x, x ∈ s1 <-> x ∈ s2) ->
                       first_occurrences s1 l = first_occurrences s2 l).
      { clear. induction l as [|x l IHl]; intros s1 s2 Hs; simpl; [done|].
        rewrite (bool_decide_ext _ _ (Hs x)). case_bool_decide.
        - by apply IHl.
        - f_equal. apply IHl. intros y. rewrite !elem_of_cons, Hs. done. }
      apply Hgen. intros x. rewrite elem_of_app, !elem_of_cons, elem_of_nil.
      tauto.
Qed.

Lemma keys_of_items (items : list (string * V)) :
  OrderedDict.keys (OrderedDict.of_items items) = first_occurrences [] (map fst items).
Proof. unfold OrderedDict.of_items. by rewrite keys_fold_setitem. Qed.
End DictFacts.

Lemma first_occurrences_spec seen l x :
  x ∈ first_occurrences seen l <-> x ∈ l /\ x ∉ seen.
Proof.
  revert seen. induction l as [|y l IH]; intros seen; simpl.
  - split; [intros ?%elem_of_nil; done | intros [?%elem_of_nil _]; done].
  - case_bool_decide as Hy.
    + rewrite IH, elem_of_cons. split; [tauto|].
      intros [[->|?] ?]; [done | tauto].
    + rewrite !elem_of_cons, IH, elem_of_cons.
      destruct (decide (x = y)) as [->|]; tauto.
Qed.

Lemma first_occurrences_NoDup seen l : NoDup (first_occurrences seen l).
Proof.
  revert seen. induction l as [|y l IH]; intros seen; simpl; [constructor|].
  case_bool_decide; [done|]. constructor; [|done].
  rewrite first_occurrences_spec, elem_of_cons. tauto.
Qed.

Lemma first_occurrences_id seen l :
  NoDup l -> (forall x, x ∈ l -> x ∉ seen) -> first_occurrences seen l = l.
Proof.
  revert seen. induction l as [|y l IH]; intros seen Hnd Hfresh; simpl; [done|].
  apply NoDup_cons in Hnd as [Hy Hnd].
  rewrite bool_decide_eq_false_2 by (apply Hfresh; left).
  f_equal. apply IH; [done|]. intros x Hx. rewrite elem_of_cons.
  intros [->|?]; [done|]. by apply (Hfresh x); [right|].
Qed.

(** ** The visitor monad *)

Lemma bind_Ok {A B} (m : M A) (k : A -> M B) self b self2 :
  bind m k self = Ok (b, self2) ->
  exists a self1, m self = Ok (a, self1) /\ k a self1 = Ok (b, self2).
Proof.
  unfold bind. destruct (m self) as [[a self1]|e]; [|done]. eauto.
Qed.

Lemma bind_step {A B} (m : M A) (k : A -> M B) self a self1 :
  m self = Ok (a, self1) -> bind m k self = k a self1.
Proof. unfold bind. by intros ->. Qed.

Lemma bind_Raise {A B} (m : M A) (k : A -> M B) self e :
  m self = Raise e -> bind m k self = Raise e.
Proof. unfold bind. by intros ->. Qed.

Lemma lift_Ok {A} (r : Result A) self a self1 :
  lift r self = Ok (a, self1) -> r = Ok a /\ self1 = self.
Proof. unfold lift. destruct r; naive_solver. Qed.

Lemma rbind_Ok {A B} (r : Result A) (k : A -> Result B) b :
  rbind r k = Ok b -> exists a, r = Ok a /\ k a = Ok b.
Proof. destruct r; simpl; [eauto | done]. Qed.

(** Splits a successful run of a sequence of binds into its steps. *)
Ltac run_steps H :=
  repeat match type of H with
  | bind _ _ _ = Ok _ =>
      let a := fresh "a" in let s := fresh "self" in let H1 := fresh "Hstep" in
      apply bind_Ok in H as (a & s & H1 & H)
  end.

Ltac run_simple :=
  repeat match goal with
  | H : lift _ _ = Ok _ |- _ => apply lift_Ok in H as [H ->]
  | H : ret _ _ = Ok _ |- _ => unfold ret in H; injection H as <- <-
  | H : get_context _ = Ok _ |- _ => unfold get_context in H; injection H as <- <-
  | H : get_graph _ = Ok _ |- _ => unfold get_graph in H; injection H as <- <-
  | H : get_sig _ = Ok _ |- _ => unfold get_sig in H; injection H as <- <-
  | H : put_context _ _ = Ok _ |- _ => unfold put_context in H; injection H as <- <-
  | H : put_graph _ _ = Ok _ |- _ => unfold put_graph in H; injection H as <- <-
  end.

Lemma extends_refl g : extends g g.
Proof. exists [], []. by rewrite !app_nil_r. Qed.

Lemma extends_trans g1 g2 g3 : extends g1 g2 -> extends g2 g3 -> extends g1 g3.
Proof.
  intros (ns & es & Hn & He) (ns' & es' & Hn' & He').
  exists (ns ++ ns'), (es ++ es'). rewrite Hn', He', Hn, He, <- !app_assoc. done.
Qed.

Lemma frame_ret {A} (a : A) : frame (ret a).
Proof. intros self b self1 [= <- <-]. eauto using extends_refl. Qed.

Lemma frame_raise {A} e : frame (@raise A e).
Proof. intros self b self1 [=]. Qed.

Lemma frame_lift {A} (r : Result A) : frame (lift r).
Proof. intros self b self1 [_ ->]%lift_Ok. eauto using extends_refl. Qed.

Lemma frame_bind {A B} (m : M A) (k : A -> M B) :
  frame m -> (forall a, frame (k a)) -> frame (bind m k).
Proof.
  intros Hm Hk self b self2 (a & self1 & H1 & H2)%bind_Ok.
  destruct (Hm _ _ _ H1) as (S1 & C1 & E1). destruct (Hk _ _ _ _ H2) as (S2 & C2 & E2).
  split; [congruence|]. split; [congruence|]. eauto using extends_trans.
Qed.

Lemma frame_get_context : frame get_context.
Proof. intros self b self1 [= <- <-]. eauto using extends_refl. Qed.

Lemma frame_get_graph : frame get_graph.
Proof. intros self b self1 [= <- <-]. eauto using extends_refl. Qed.

Lemma frame_get_sig : frame get_sig.
Proof. intros self b self1 [= <- <-]. eauto using extends_refl. Qed.

Lemma frame_mapM {A B} (f : A -> M B) (l : list A) :
  Forall (fun a => frame (f a)) l -> frame (mapM f l).
Proof.
  induction 1 as [|a l Ha _ IH]; simpl; [apply frame_ret|].
  apply frame_bind; [done|]. intros b. apply frame_bind; [done|].
  intros bs. apply frame_ret.
Qed.

(** Builder calls. *)

Lemma add_edge_Ok g src tgt g' :
  add_edge g src tgt = Ok g' ->
  graph_nodes g' = graph_nodes g /\ graph_edges g' = graph_edges g ++ [mkEdge src tgt].
Proof. unfold add_edge. destruct (port_written g tgt); [done|]. by intros [= <-]. Qed.

Lemma wire_incoming_Ok g n kwargs g' :
  wire_incoming g n kwargs = Ok g' ->
  graph_nodes g' = graph_nodes g ++ incoming_consts kwargs /\
  graph_edges g' = graph_edges g ++ incoming_edges (length (graph_nodes g)) n kwargs.
Proof.
  revert g. induction kwargs as [|[k [p|v]] kw IH]; intros g; simpl.
  - intros [= <-]. by rewrite !app_nil_r.
  - intros (g1 & [Hn He]%add_edge_Ok & [Hn' He']%IH)%rbind_Ok.
    rewrite Hn', He', Hn, He, <- app_assoc. done.
  - intros (g1 & [Hn He]%add_edge_Ok & [Hn' He']%IH)%rbind_Ok. simpl in Hn, He.
    rewrite Hn', He', Hn, He, <- !app_assoc, length_app. simpl.
    by rewrite Nat.add_1_r.
Qed.

Lemma add_entry_Ok g node kwargs n g' :
  add_entry g node kwargs = Ok (n, g') ->
  n = NodeIdx (length (graph_nodes g)) /\
  graph_nodes g' = graph_nodes g ++ node :: incoming_consts kwargs /\
  graph_edges g' = graph_edges g ++ incoming_edges (S (length (graph_nodes g))) n kwargs.
Proof.
  unfold add_entry. intros (g1 & [Hn He]%wire_incoming_Ok & [= <- <-])%rbind_Ok.
  simpl in Hn, He. rewrite length_app, Nat.add_1_r in He.
  rewrite Hn, <- app_assoc. done.
Qed.

Lemma set_outputs_Ok g kwargs g' :
  set_outputs g kwargs = Ok g' ->
  graph_nodes g' = graph_nodes g /\
  graph_edges g' = graph_edges g
                   ++ map (fun kv => mkEdge kv.2 (mkNodePort OutputRef kv.1)) kwargs.
Proof.
  revert g. induction kwargs as [|[k p] kw IH]; intros g; simpl.
  - intros [= <-]. by rewrite app_nil_r.
  - intros (g1 & [Hn He]%add_edge_Ok & [Hn' He']%IH)%rbind_Ok.
    rewrite Hn', He', Hn, He, <- app_assoc. done.
Qed.

Lemma graph_add_const_run v self :
  graph_add_const v self
  = Ok (NodeIdx (length (graph_nodes (self_graph self))),
        mkVisitor (self_sig self) (self_context self)
                  (mkGraph (graph_nodes (self_graph self) ++ [ConstNode v])
                           (graph_edges (self_graph self)))).
Proof. done. Qed.

Lemma graph_add_node_Ok name kwargs self n self1 :
  graph_add_node name kwargs self = Ok (n, self1) ->
  n = NodeIdx (length (graph_nodes (self_graph self))) /\
  self_sig self1 = self_sig self /\ self_context self1 = self_context self /\
  graph_nodes (self_graph self1)
  = graph_nodes (self_graph self) ++ FunctionNode name :: incoming_consts kwargs /\
  graph_edges (self_graph self1)
  = graph_edges (self_graph self)
    ++ incoming_edges (S (length (graph_nodes (self_graph self)))) n kwargs.
Proof.
  unfold graph_add_node. intros H. run_steps H. run_simple.
  destruct a0 as [n' g']. run_steps H. run_simple.
  apply add_entry_Ok in Hstep0 as (-> & ? & ?). done.
Qed.

Lemma graph_add_node_call name kwargs self n self1 :
  graph_add_node name kwargs self = Ok (n, self1) ->
  add_node (self_graph self) name kwargs = Ok (n, self_graph self1).
Proof.
  unfold graph_add_node. intros H. run_steps H. run_simple.
  destruct a0 as [n' g']. run_steps H. run_simple. exact Hstep0.
Qed.

Lemma graph_add_box_Ok sub name kwargs self n self1 :
  graph_add_box sub name kwargs self = Ok (n, self1) ->
  n = NodeIdx (length (graph_nodes (self_graph self))) /\
  self_sig self1 = self_sig self /\ self_context self1 = self_context self /\
  graph_nodes (self_graph self1)
  = graph_nodes (self_graph self) ++ BoxNode sub name :: incoming_consts kwargs /\
  graph_edges (self_graph self1)
  = graph_edges (self_graph self)
    ++ incoming_edges (S (length (graph_nodes (self_graph self)))) n kwargs.
Proof.
  unfold graph_add_box. intros H. run_steps H. run_simple.
  destruct a0 as [n' g']. run_steps H. run_simple.
  apply add_entry_Ok in Hstep0 as (-> & ? & ?). done.
Qed.

Lemma frame_graph_add_const v : frame (graph_add_const v).
Proof.
  intros self n self1. rewrite graph_add_const_run. intros [= <- <-]. simpl.
  repeat split. by exists [ConstNode v], []; rewrite app_nil_r.
Qed.

Lemma frame_graph_add_node name kwargs : frame (graph_add_node name kwargs).
Proof.
  intros self n self1 (_ & ? & ? & ? & ?)%graph_add_node_Ok.
  repeat split; [done..|]. eexists _, _; eauto.
Qed.

Lemma frame_graph_add_box sub name kwargs : frame (graph_add_box sub name kwargs).
Proof.
  intros self n self1 (_ & ? & ? & ? & ?)%graph_add_box_Ok.
  repeat split; [done..|]. eexists _, _; eauto.
Qed.

Create HintDb frame.
#[local] Hint Resolve frame_ret frame_raise frame_lift frame_get_context frame_get_graph
  frame_get_sig frame_graph_add_const frame_graph_add_node frame_graph_add_box : frame.

Ltac frame_auto :=
  repeat first
    [ progress eauto with frame
    | apply frame_bind; [|intros ?]
    | match goal with
      | |- frame (match ?x with _ => _ end) => destruct x
      | |- frame (let '(_, _) := ?x in _) => destruct x
      | |- frame (if ?b then _ else _) => destruct b
      end ].

Lemma frame_visitPort_label ctx : frame (visitPort_label ctx).
Proof. unfold visitPort_label. frame_auto. Qed.

Lemma frame_visitF_name ctx : frame (visitF_name ctx).
Proof. unfold visitF_name. frame_auto. Qed.

Lemma frame_visitThunkable_port ctx : frame (visitThunkable_port ctx).
Proof.
  destruct ctx; simpl; [| |apply frame_raise].
  - apply frame_bind; [apply frame_visitPort_label|]. intros ?. apply frame_ret.
  - frame_auto.
Qed.

Lemma frame_visitPort_map_over (v : Outport -> M (list NodePort)) kv :
  frame (v kv.2) -> frame (visitPort_map_over v kv).
Proof.
  destruct kv as [inport outport]. intros Hv. unfold visitPort_map_over. frame_auto.
Qed.

Lemma frame_visitNamed_map_over (v : Outport -> M (list NodePort)) port_l :
  Forall (fun kv => frame (v kv.2)) port_l -> frame (visitNamed_map_over v port_l).
Proof.
  intros Hall. unfold visitNamed_map_over. apply frame_bind; [|intros; apply frame_ret].
  apply frame_mapM. eapply Forall_impl; [exact Hall|].
  intros kv. apply frame_visitPort_map_over.
Qed.

Lemma frame_visitPositional_args_over (v : Outport -> M (list NodePort)) arg_l :
  Forall (fun o => frame (v o)) arg_l -> frame (visitPositional_args_over v arg_l).
Proof.
  intros Hall. unfold visitPositional_args_over.
  apply frame_bind; [|intros; apply frame_ret]. by apply frame_mapM.
Qed.

Lemma frame_visitOutport o : frame (visitOutport o).
Proof.
  apply (Outport_mut (fun o => frame (visitOutport o))
           (fun c => frame (visitNode_inputs c))
           (fun a => forall expected, frame (visitArglist a expected))); clear o.
  - intros tp. apply frame_visitThunkable_port.
  - intros call Hcall. simpl. frame_auto.
  - intros c. simpl. frame_auto.
  - simpl. frame_auto.
  - intros f args Hargs. simpl.
    apply frame_bind; [apply frame_visitF_name|]. intros [f_name f_def].
    apply frame_bind.
    { destruct args; simpl in *; [apply Hargs | apply frame_raise]. }
    intros arglist. frame_auto.
  - intros tp named Hnamed. simpl.
    apply frame_bind; [apply frame_visitThunkable_port|]. intros ports.
    apply frame_bind; [apply frame_lift|]. intros outport.
    apply frame_bind.
    { destruct named; simpl in *; [by apply frame_visitNamed_map_over | apply frame_ret]. }
    intros arglist. frame_auto.
  - intros port_l Hall expected. simpl. by apply frame_visitNamed_map_over.
  - intros arg_l Hall expected. simpl.
    apply frame_bind; [by apply frame_visitPositional_args_over|].
    intros ?. apply frame_ret.
  - intros expected. simpl. apply frame_raise.
Qed.

Lemma frame_visitNamed_map port_l : frame (visitNamed_map port_l).
Proof.
  apply frame_visitNamed_map_over, Forall_forall. intros; apply frame_visitOutport.
Qed.

Lemma frame_visitPositional_args arg_l : frame (visitPositional_args arg_l).
Proof.
  apply frame_visitPositional_args_over, Forall_forall. intros; apply frame_visitOutport.
Qed.

(** Lowering a block with a sub-visitor leaves the calling visitor as it
    was: the sub-visitor works on its own copy of the context it is given
    and on a graph of its own. *)
Lemma sub_visit_Ok (v : Inst -> M unit) context block self g self1 :
  sub_visit v context block self = Ok (g, self1) ->
  self1 = self /\
  exists final,
    visitCode_block_over v block (new_visitor (self_sig self) context) = Ok (g, final).
Proof.
  unfold sub_visit. intros H. run_steps H. run_simple.
  destruct (visitCode_block_over v block _) as [[g' final]|e] eqn:E; [|done].
  injection H as ->. eauto.
Qed.

Lemma set_output_var_run target r self :
  set_output_var target r self
  = Ok (tt, mkVisitor (self_sig self)
              (mkContext (functions (self_context self))
                         (<[target := r]> (output_vars (self_context self)))
                         (constants (self_context self)) (inputs (self_context self))
                         (outputs (self_context self)) (aliases (self_context self)))
              (self_graph self)).
Proof. done. Qed.

(** ** Resolution of names *)

(** C1: a bare identifier used as an outport source resolves in priority
    order: a declared input port of the body gives the boundary input port
    of that name; otherwise a bound call result gives that node's output
    ports in signature order; otherwise a declared function is materialized
    as a constant node holding its graph, whose [value] port is returned;
    otherwise a declared constant gives that node's [value] port; otherwise
    resolution fails with the name-not-in-scope error. *)
Theorem bare_identifier_priority (self : TkslTopVisitor) (name : string) :
  let c := self_context self in
  let g := self_graph self in
  (name ∈ OrderedDict.keys (inputs c) ->
   visitOutport (OutThunkable (ThunkID name)) self
   = Ok ([mkNodePort InputRef name], self)) /\
  (name ∉ OrderedDict.keys (inputs c) ->
   forall n fd, output_vars c !! name = Some (n, fd) ->
   visitOutport (OutThunkable (ThunkID name)) self
   = Ok (map (mkNodePort n) (fd_outputs fd), self)) /\
  (name ∉ OrderedDict.keys (inputs c) -> output_vars c !! name = None ->
   forall fg fd, functions c !! name = Some (fg, fd) ->
   visitOutport (OutThunkable (ThunkID name)) self
   = Ok ([mkNodePort (NodeIdx (length (graph_nodes g))) "value"],
         mkVisitor (self_sig self) c
                   (mkGraph (graph_nodes g ++ [ConstNode (VGraph fg)]) (graph_edges g)))) /\
  (name ∉ OrderedDict.keys (inputs c) -> output_vars c !! name = None ->
   functions c !! name = None ->
   forall n, constants c !! name = Some n ->
   visitOutport (OutThunkable (ThunkID name)) self = Ok ([mkNodePort n "value"], self)) /\
  (name ∉ OrderedDict.keys (inputs c) -> output_vars c !! name = None ->
   functions c !! name = None -> constants c !! name = None ->
   visitOutport (OutThunkable (ThunkID name)) self
   = Raise (RuntimeError ("Name not found in scope: " +:+ name +:+ "."))).
Proof.
  intros c g. subst c g. simpl. unfold bind, get_context.
  destruct (OrderedDict.contains name (inputs (self_context self))) eqn:Hin.
  - apply contains_keys in Hin. repeat split; intros; done.
  - assert (Hout : name ∉ OrderedDict.keys (inputs (self_context self))).
    { rewrite <- contains_keys. congruence. }
    split; [done|]. split; [by intros _ n fd ->|].
    split; [intros _ -> fg fd ->; by rewrite graph_add_const_run|].
    split; [by intros _ -> -> n ->|]. by intros _ -> -> ->.
Qed.

Lemma bare_identifier_priority_witness :
  visitOutport (Samples.id_ "a") Samples.in_body
  = Ok ([mkNodePort InputRef "a"], Samples.in_body) /\
  visitOutport (Samples.id_ "s") Samples.in_body
  = Ok ([mkNodePort (NodeIdx 0) "c"], Samples.in_body) /\
  (exists self1,
     visitOutport (Samples.id_ "f") Samples.in_body
     = Ok ([mkNodePort (NodeIdx 3) "value"], self1)) /\
  visitOutport (Samples.id_ "k") Samples.in_body
  = Ok ([mkNodePort (NodeIdx 1) "value"], Samples.in_body) /\
  visitOutport (Samples.id_ "z") Samples.in_body
  = Raise (RuntimeError "Name not found in scope: z.").
Proof.
  assert (Hfresh : forall x : string,
             bool_decide (x ∈ ["a"]) = false ->
             x ∉ OrderedDict.keys (inputs (self_context Samples.in_body))).
  { intros x Hx. by apply bool_decide_eq_false in Hx. }
  split; [|split; [|split; [|split]]].
  - apply (bare_identifier_priority Samples.in_body "a"). simpl. left.
  - destruct (bare_identifier_priority Samples.in_body "s") as (_ & H & _).
    exact (H (Hfresh "s" eq_refl) (NodeIdx 0)
             (mkFunctionDefinition ["a"; "b"] ["c"] None) eq_refl).
  - eexists.
    destruct (bare_identifier_priority Samples.in_body "f") as (_ & _ & H & _).
    exact (H (Hfresh "f" eq_refl) eq_refl empty_graph
             (mkFunctionDefinition [] [] None) eq_refl).
  - destruct (bare_identifier_priority Samples.in_body "k") as (_ & _ & _ & H & _).
    exact (H (Hfresh "k" eq_refl) eq_refl eq_refl (NodeIdx 1) eq_refl).
  - destruct (bare_identifier_priority Samples.in_body "z") as (_ & _ & _ & _ & H).
    exact (H (Hfresh "z" eq_refl) eq_refl eq_refl eq_refl).
Defined.

(** C8 (as the code has it): an explicit [var.port] reference looks [var]
    up in the current [output_vars] and returns the port of that node with
    the given name, whether or not the name is among the outputs of the
    function that produced the node; an unbound [var] raises [KeyError]. *)
Theorem port_label_resolution (self : TkslTopVisitor) (var port : string) :
  (forall n fd, output_vars (self_context self) !! var = Some (n, fd) ->
   visitOutport (OutThunkable (ThunkPortLabel (mkPort_label var port))) self
   = Ok ([mkNodePort n port], self)) /\
  (output_vars (self_context self) !! var = None ->
   visitOutport (OutThunkable (ThunkPortLabel (mkPort_label var port))) self
   = Raise (KeyError var)).
Proof.
  simpl. unfold visitPort_label, bind, get_context. simpl.
  split; [intros n fd ->|intros ->]; done.
Qed.

Lemma port_label_resolution_witness :
("nope" ∉ ["c"]) /\
  visitOutport (Samples.dot "s" "nope") Samples.in_body
  = Ok ([mkNodePort (NodeIdx 0) "nope"], Samples.in_body) /\
  visitOutport (Samples.dot "t" "c") Samples.in_body = Raise (KeyError "t").
Proof.
  split; [by apply (bool_decide_eq_false_1 ("nope" ∈ ["c"]))|]. split.
  - exact (proj1 (port_label_resolution Samples.in_body "s" "nope") (NodeIdx 0)
             (mkFunctionDefinition ["a"; "b"] ["c"] None) eq_refl).
  - exact (proj2 (port_label_resolution Samples.in_body "t" "c") eq_refl).
Defined.

(** C8 fails as stated: [s.nope], where [iadd] declares the single output
    [c], does not fail; the program compiles and the boundary output [r] is
    wired from the port [nope] of the [iadd] node. *)
Lemma port_label_absent_port_accepted :
("nope" ∉ ["c"]) /\
  compile Samples.catalog Samples.unknown_port
  = Ok (mkGraph [FunctionNode "builtin/iadd"]
          [mkEdge (mkNodePort InputRef "a") (mkNodePort (NodeIdx 0) "a");
           mkEdge (mkNodePort InputRef "b") (mkNodePort (NodeIdx 0) "b");
           mkEdge (mkNodePort (NodeIdx 0) "nope") (mkNodePort OutputRef "r")]).
Proof.
  split; [by apply (bool_decide_eq_false_1 ("nope" ∈ ["c"]))|]. by vm_compute.
Qed.

(** ** Unknown functions *)

Lemma visitF_name_unknown self f :
  ~ in_catalog (self_sig self) f ->
  functions (self_context self) !! fn_func_name f = None ->
  visitF_name f self = Raise (RuntimeError ("Function name not found: " +:+ fn_func_name f)).
Proof.
  intros Hcat Hloc. unfold visitF_name, bind, get_sig, get_context. simpl.
  destruct (self_sig self !! default "builtin" (fn_namespace f)) as [ns|] eqn:Ens; simpl.
  - destruct (ns !! fn_func_name f) as [tk|] eqn:Etk.
    + exfalso. apply Hcat. by exists ns, tk.
    + by rewrite Hloc.
  - by rewrite Hloc.
Qed.

Lemma funcdef_context_functions c fd : functions (funcdef_context c fd) = functions c.
Proof. unfold funcdef_context. by destruct (fd_graph_type fd). Qed.

(** C9: a call to a function name that is neither in the signature catalog
    (under its namespace, [builtin] by default) nor in the local functions
    table fails with the error that names the missing function; the
    instruction and the block that hold the call fail with it, and
    compiling a program whose [main] starts with such a call returns the
    error and no graph. *)
Theorem unknown_function_fails (self : TkslTopVisitor) (f : F_name)
    (args : option Arglist) :
  ~ in_catalog (self_sig self) f ->
  functions (self_context self) !! fn_func_name f = None ->
  let err := RuntimeError ("Function name not found: " +:+ fn_func_name f) in
  visitFuncCall f args self = Raise err /\
  visitOutport (OutNodeInputs (FuncCall f args)) self = Raise err /\
  (forall target rest,
     visitCode_block (CallMap target (FuncCall f args) :: rest) self = Raise err) /\
  (forall gt fd target rest,
     self_context self = empty_context ->
     visitGraph_type ∅ gt = Ok fd ->
     compile (self_sig self) [FuncDef "main" gt (CallMap target (FuncCall f args) :: rest)]
     = Raise err).
Proof.
  intros Hcat Hloc err.
  assert (Hcall : forall s, self_sig s = self_sig self ->
                    functions (self_context s) = functions (self_context self) ->
                    visitNode_inputs (FuncCall f args) s = Raise err).
  { intros s Hs Hf. simpl. apply bind_Raise, visitF_name_unknown; congruence. }
  assert (Hblock : forall s target rest, self_sig s = self_sig self ->
                     functions (self_context s) = functions (self_context self) ->
                     visitCode_block (CallMap target (FuncCall f args) :: rest) s
                     = Raise err).
  { intros s target rest Hs Hf. unfold visitCode_block, visitCode_block_over. simpl.
    apply bind_Raise, bind_Raise. unfold visitCallMap. by apply bind_Raise, Hcall. }
  split; [by apply Hcall|]. split; [by apply bind_Raise, Hcall|].
  split; [intros; by apply Hblock|].
  intros gt fd target rest Hctx Hgt. unfold compile, visitStart. simpl.
  unfold visitFuncDef.
  rewrite (bind_Raise _ _ _ err); [done|]. apply bind_Raise.
  erewrite bind_step by reflexivity. simpl. unfold copy. simpl. rewrite Hgt. simpl.
  erewrite (bind_step (lift (Ok fd))) by reflexivity.
  apply bind_Raise. unfold sub_visit. erewrite bind_step by reflexivity. simpl.
  fold visitCode_block. rewrite Hblock; [done..|].
  rewrite Hctx. exact (funcdef_context_functions empty_context fd).
Qed.

Lemma unknown_function_fails_witness :
  compile Samples.catalog Samples.frobnicate
  = Raise (RuntimeError "Function name not found: frobnicate").
Proof.
  refine (proj2 (proj2 (proj2
    (unknown_function_fails (new_visitor Samples.catalog empty_context)
       (mkF_name None "frobnicate") (Some (ArgPositional [Samples.id_ "a"])) _ _)))
    (mkGraph_type [("a", TypeInt)] [("r", TypeInt)])
    (mkFunctionDefinition ["a"] ["r"]
       (Some (mkGraphType [("a", IntType)] [("r", IntType)])))
    "q" [] eq_refl eq_refl).
  - intros (ns & tk & Hns & Htk). simpl in Hns.
    assert (ns !! "frobnicate" = None) as Hnone; [|simpl in Htk; congruence].
    injection Hns as <-. reflexivity.
  - reflexivity.
Defined.

(** ** Argument binding *)

Section ZipFacts.
Context {V : Type}.

Lemma setitem_notin (k : string) (v : V) d :
  k ∉ OrderedDict.keys d -> OrderedDict.setitem k v d = d ++ [(k, v)].
Proof.
  induction d as [|[k' v'] d IH]; simpl; intros Hk; [done|].
  rewrite eqb_decide. rewrite bool_decide_eq_false_2.
  - f_equal. apply IH. intros ?. apply Hk. by right.
  - intros ->. apply Hk. left.
Qed.

Lemma fold_setitem_NoDup (items d0 : list (string * V)) :
  NoDup (OrderedDict.keys d0 ++ map fst items) ->
  fold_left (fun d kv => OrderedDict.setitem kv.1 kv.2 d) items d0 = d0 ++ items.
Proof.
  revert d0. induction items as [|[k v] items IH]; intros d0 Hnd; simpl.
  - by rewrite app_nil_r.
  - simpl in Hnd. apply NoDup_app in Hnd as (Hd0 & Hdisj & Hitems).
    apply NoDup_cons in Hitems as [Hk Hitems].
    rewrite setitem_notin by (intros Hin; apply (Hdisj k Hin); left).
    rewrite IH; [by rewrite <- app_assoc|].
    unfold OrderedDict.keys. rewrite map_app. simpl. rewrite <- app_assoc. simpl.
    apply NoDup_app. split; [done|]. split; [|by apply NoDup_cons].
    intros x Hx. by apply Hdisj.
Qed.

(** A dictionary built from items with distinct keys lists them as given. *)
Lemma of_items_NoDup (items : list (string * V)) :
  NoDup (map fst items) -> OrderedDict.of_items items = items.
Proof. intros Hnd. unfold OrderedDict.of_items. by rewrite fold_setitem_NoDup. Qed.

Lemma zip_fst (a : list string) (b : list V) : map fst (zip a b) = take (length b) a.
Proof.
  revert b. induction a as [|x a IH]; intros [|y b]; simpl; try done. by rewrite IH.
Qed.

Lemma zip_lookup (a : list string) (b : list V) i :
  zip a b !! i
  = match a !! i, b !! i with
    | Some k, Some p => Some (k, p)
    | _, _ => None
    end.
Proof.
  revert b i. induction a as [|x a IH]; intros [|y b] [|i]; simpl;
    first [done | by destruct (a !! i) | apply IH].
Qed.
End ZipFacts.

Lemma NoDup_take (l : list string) n : NoDup l -> NoDup (take n l).
Proof.
  intros Hnd. rewrite <- (take_drop n l) in Hnd. by apply NoDup_app in Hnd as [? _].
Qed.

(** C7 (as the code has it): with the positional form the argument
    outports, flattened into one list, are zipped against the expected
    port names, the callee's declared input order: position [i] of that
    list is bound to the [i]-th declared input port.  The binding never
    fails on account of the two lengths: when they differ the surplus
    outports, or the surplus port names, are left out. *)
Theorem positional_args_zipped (arg_l : list Outport) (expected : list string)
    (self self1 : TkslTopVisitor) (ports : list NodePort) :
  visitPositional_args arg_l self = Ok (ports, self1) ->
  exists kwargs,
    visitArglist (ArgPositional arg_l) expected self = Ok (kwargs, self1) /\
    kwargs = OrderedDict.of_items (zip expected ports) /\
    (NoDup expected ->
     forall i, kwargs !! i = match expected !! i, ports !! i with
                             | Some name, Some p => Some (name, p)
                             | _, _ => None
                             end).
Proof.
  intros Hpos. eexists. split; [|split; [reflexivity|]].
  - simpl. fold visitPositional_args. by erewrite bind_step by exact Hpos.
  - intros Hnd i. rewrite of_items_NoDup; [apply zip_lookup|].
    rewrite zip_fst. by apply NoDup_take.
Qed.

Lemma positional_args_zipped_witness :
  exists kwargs,
    visitArglist (ArgPositional [Samples.id_ "a"; Samples.id_ "d"]) ["x"; "y"]
                 Samples.in_body
    = Ok (kwargs, Samples.in_body) /\
    kwargs !! 0%nat = Some ("x", mkNodePort InputRef "a") /\
    kwargs !! 1%nat = Some ("y", mkNodePort (NodeIdx 2) "q") /\
    kwargs !! 2%nat = None.
Proof.
  destruct (positional_args_zipped [Samples.id_ "a"; Samples.id_ "d"] ["x"; "y"]
              Samples.in_body Samples.in_body
              [mkNodePort InputRef "a"; mkNodePort (NodeIdx 2) "q";
               mkNodePort (NodeIdx 2) "r"] eq_refl)
    as (kwargs & Hrun & _ & Hpos).
  assert (Hnd : NoDup ["x"; "y"]) by (by apply (bool_decide_eq_true_1 (NoDup ["x"; "y"]))).
  exists kwargs. split; [exact Hrun|].
  split; [exact (Hpos Hnd 0%nat)|]. split; [exact (Hpos Hnd 1%nat) | exact (Hpos Hnd 2%nat)].
Defined.

(** C7 fails as stated: [iadd] declares the inputs [a] and [b]; the call
    [iadd(a)] with one positional argument compiles, and only port [a] of
    the node is wired. *)
Lemma arity_mismatch_accepted :
  length [Samples.id_ "a"] <> length ["a"; "b"] /\
  compile Samples.catalog Samples.too_few
  = Ok (mkGraph [FunctionNode "builtin/iadd"]
          [mkEdge (mkNodePort InputRef "a") (mkNodePort (NodeIdx 0) "a");
           mkEdge (mkNodePort (NodeIdx 0) "c") (mkNodePort OutputRef "r")]).
Proof. split; [simpl; lia | by vm_compute]. Qed.

(** ** Named arguments and thunks *)

Lemma incoming_consts_from_ports d : incoming_consts (from_ports d) = [].
Proof. induction d as [|[k p] d IH]; simpl; done. Qed.

Lemma incoming_edges_from_ports next n d :
  incoming_edges next n (from_ports d) = map (fun kv => mkEdge kv.2 (mkNodePort n kv.1)) d.
Proof. induction d as [|[k p] d IH]; simpl; [done|]. by f_equal. Qed.

Lemma call_kwargs_Ok explicit extra kwargs :
  call_kwargs explicit extra = Ok kwargs -> kwargs = explicit ++ extra.
Proof.
  unfold call_kwargs. destruct (filter _ _); [|done]. by intros [= <-].
Qed.



(** ** Nested blocks *)

(** The steps of a successful [visitIfBlock]. *)
Lemma visitIfBlock_Ok target condition inps if_block else_block self self3 :
  visitIfBlock target condition inps if_block else_block self = Ok (tt, self3) ->
  exists cond ports self1 inputs self2 if_g else_g fin1 fin2,
    visitOutport condition self = Ok (cond :: ports, self1) /\
    from_option visitNamed_map (ret []) inps self1 = Ok (inputs, self2) /\
    visitCode_block if_block
      (new_visitor (self_sig self2) (nested_context (self_context self2) inputs))
    = Ok (if_g, fin1) /\
    visitCode_block else_block
      (new_visitor (self_sig self2) (nested_context (self_context self2) inputs))
    = Ok (else_g, fin2) /\
    self_sig self3 = self_sig self2 /\
    self_context self3
    = bind_target (self_context self2) target
        (NodeIdx (3 + length (graph_nodes (self_graph self2))),
         fake_func (nested_context (self_context self2) inputs)
                   (union_names (graph_outputs if_g) (graph_outputs else_g))) /\
    graph_nodes (self_graph self3)
    = graph_nodes (self_graph self2)
      ++ [FunctionNode "builtin/switch"; ConstNode (VGraph if_g);
          ConstNode (VGraph else_g); FunctionNode "builtin/eval"] /\
    graph_edges (self_graph self3)
    = graph_edges (self_graph self2)
      ++ [mkEdge cond
            (mkNodePort (NodeIdx (length (graph_nodes (self_graph self2)))) "pred");
          mkEdge (mkNodePort (NodeIdx (1 + length (graph_nodes (self_graph self2)))) "value")
            (mkNodePort (NodeIdx (length (graph_nodes (self_graph self2)))) "if_true");
          mkEdge (mkNodePort (NodeIdx (2 + length (graph_nodes (self_graph self2)))) "value")
            (mkNodePort (NodeIdx (length (graph_nodes (self_graph self2)))) "if_false");
          mkEdge (mkNodePort (NodeIdx (length (graph_nodes (self_graph self2)))) "value")
            (mkNodePort (NodeIdx (3 + length (graph_nodes (self_graph self2)))) "thunk")]
      ++ edges_of_named (NodeIdx (3 + length (graph_nodes (self_graph self2)))) inputs /\
    exists g1,
      add_node (self_graph self2) "builtin/switch"
        [("pred", FromPort cond); ("if_true", Supplied (VGraph if_g));
         ("if_false", Supplied (VGraph else_g))]
      = Ok (NodeIdx (length (graph_nodes (self_graph self2))), g1) /\
      add_node g1 "builtin/eval"
        (("thunk",
          FromPort (getport (NodeIdx (length (graph_nodes (self_graph self2)))) "value"))
         :: from_ports inputs)
      = Ok (NodeIdx (3 + length (graph_nodes (self_graph self2))), self_graph self3).
Proof.
  unfold visitIfBlock, visitIfBlock_over. intros H.
  apply bind_Ok in H as (ports0 & self1 & Hcond & H).
  apply bind_Ok in H as (cond & s & Hfirst & H). apply lift_Ok in Hfirst as [Hfirst ->].
  destruct ports0 as [|cond' ports]; [done|]. injection Hfirst as ->.
  apply bind_Ok in H as (inputs & self2 & Hin & H).
  apply bind_Ok in H as (c & s & Hc & H). injection Hc as <- <-.
  apply bind_Ok in H as (if_g & s & Hif & H).
  apply sub_visit_Ok in Hif as (-> & fin1 & Hif).
  apply bind_Ok in H as (else_g & s & Helse & H).
  apply sub_visit_Ok in Helse as (-> & fin2 & Helse).
  apply bind_Ok in H as (sw & s3 & Hsw & H).
  pose proof (graph_add_node_call _ _ _ _ _ Hsw) as Hcall1.
  apply graph_add_node_Ok in Hsw as (-> & Hsig3 & Hctx3 & Hn3 & He3).
  apply bind_Ok in H as (kwargs & s & Hkw & H). apply lift_Ok in Hkw as [Hkw ->].
  apply call_kwargs_Ok in Hkw as ->.
  apply bind_Ok in H as (ev & s4 & Hev & H).
  pose proof (graph_add_node_call _ _ _ _ _ Hev) as Hcall2.
  apply graph_add_node_Ok in Hev as (-> & Hsig4 & Hctx4 & Hn4 & He4).
  rewrite set_output_var_run in H. injection H as <-. simpl in *.
  exists cond, ports, self1, inputs, self2, if_g, else_g, fin1, fin2.
  split; [done|]. split; [by destruct inps|]. split; [done|]. split; [done|].
  split; [congruence|].
  assert (Hlen : length (graph_nodes (self_graph s3))
                 = S (S (S (length (graph_nodes (self_graph self2)))))).
  { rewrite Hn3, length_app. simpl. lia. }
  rewrite incoming_consts_from_ports in Hn4. rewrite incoming_edges_from_ports in He4.
  split.
  { unfold bind_target. rewrite Hctx4, Hctx3, Hlen. done. }
  split.
  { rewrite Hn4, Hn3, <- app_assoc. done. }
  split.
  { rewrite He4, He3, Hlen, <- app_assoc. done. }
  exists (self_graph s3). split; [exact Hcall1|]. rewrite <- Hlen. exact Hcall2.
Qed.

(** The steps of a successful [visitLoop]. *)
Lemma visitLoop_Ok target inps body condition self self3 :
  visitLoop target inps body condition self = Ok (tt, self3) ->
  exists inputs self2 body_g condition_g fin1 fin2,
    from_option visitNamed_map (ret []) inps self = Ok (inputs, self2) /\
    visitCode_block body
      (new_visitor (self_sig self2) (nested_context (self_context self2) inputs))
    = Ok (body_g, fin1) /\
    visitCode_block condition
      (new_visitor (self_sig self2) (nested_context (self_context self2) inputs))
    = Ok (condition_g, fin2) /\
    self_sig self3 = self_sig self2 /\
    self_context self3
    = bind_target (self_context self2) target
        (NodeIdx (length (graph_nodes (self_graph self2))),
         fake_func (nested_context (self_context self2) inputs) (graph_outputs body_g)) /\
    graph_nodes (self_graph self3)
    = graph_nodes (self_graph self2)
      ++ [FunctionNode "builtin/loop"; ConstNode (VGraph condition_g);
          ConstNode (VGraph body_g)] /\
    graph_edges (self_graph self3)
    = graph_edges (self_graph self2)
      ++ [mkEdge (mkNodePort (NodeIdx (1 + length (graph_nodes (self_graph self2)))) "value")
            (mkNodePort (NodeIdx (length (graph_nodes (self_graph self2)))) "condition");
          mkEdge (mkNodePort (NodeIdx (2 + length (graph_nodes (self_graph self2)))) "value")
            (mkNodePort (NodeIdx (length (graph_nodes (self_graph self2)))) "body")]
      ++ edges_of_named (NodeIdx (length (graph_nodes (self_graph self2)))) inputs /\
    add_node (self_graph self2) "builtin/loop"
      (("condition", Supplied (VGraph condition_g))
       :: ("body", Supplied (VGraph body_g)) :: from_ports inputs)
    = Ok (NodeIdx (length (graph_nodes (self_graph self2))), self_graph self3).
Proof.
  unfold visitLoop, visitLoop_over. intros H.
  apply bind_Ok in H as (inputs & self2 & Hin & H).
  apply bind_Ok in H as (c & s & Hc & H). injection Hc as <- <-.
  apply bind_Ok in H as (body_g & s & Hbody & H).
  apply sub_visit_Ok in Hbody as (-> & fin1 & Hbody).
  apply bind_Ok in H as (condition_g & s & Hcond & H).
  apply sub_visit_Ok in Hcond as (-> & fin2 & Hcond).
  apply bind_Ok in H as (kwargs & s & Hkw & H). apply lift_Ok in Hkw as [Hkw ->].
  apply call_kwargs_Ok in Hkw as ->.
  apply bind_Ok in H as (lp & s4 & Hlp & H).
  pose proof (graph_add_node_call _ _ _ _ _ Hlp) as Hcall.
  apply graph_add_node_Ok in Hlp as (-> & Hsig4 & Hctx4 & Hn4 & He4).
  rewrite set_output_var_run in H. injection H as <-. simpl in *.
  rewrite incoming_consts_from_ports in Hn4. rewrite incoming_edges_from_ports in He4.
  exists inputs, self2, body_g, condition_g, fin1, fin2.
  split; [by destruct inps|]. split; [done|]. split; [done|]. split; [done|].
  split; [unfold bind_target; by rewrite Hctx4|].
  split; [exact Hn4|]. split; [exact He4 | exact Hcall].
Qed.

Lemma frame_named_inputs inps : frame (from_option visitNamed_map (ret []) inps).
Proof. destruct inps; simpl; [apply frame_visitNamed_map | apply frame_ret]. Qed.

(** The names of a named map are those written in it. *)
Lemma mapM_visitPort_map_names port_l self items self1 :
  mapM visitPort_map port_l self = Ok (items, self1) -> map fst items = map fst port_l.
Proof.
  revert self items self1.
  induction port_l as [|[k o] port_l IH]; intros self items self1; simpl.
  - by intros [= <- _].
  - intros H. apply bind_Ok in H as ([k' p] & s1 & Hone & H).
    apply bind_Ok in H as (items' & s2 & Hrest & H). injection H as <- _.
    apply IH in Hrest. simpl. f_equal; [|done].
    unfold visitPort_map, visitPort_map_over in Hone.
    apply bind_Ok in Hone as (ports & s & _ & Hone).
    apply bind_Ok in Hone as (p' & s' & _ & Hone). by injection Hone as <- _ _.
Qed.


Lemma nested_context_inputs c inps :
  OrderedDict.keys (inputs (nested_context c inps)) = OrderedDict.keys inps.
Proof.
  unfold nested_context, OrderedDict.keys. simpl. rewrite map_map. simpl. by rewrite map_id.
Qed.

Lemma fake_func_outputs nested names :
  fd_outputs (fake_func nested names) = first_occurrences [] names.
Proof.
  unfold fake_func. simpl. rewrite keys_of_items, map_map. simpl. by rewrite map_id.
Qed.

Lemma union_names_spec a b x : x ∈ union_names a b <-> x ∈ a \/ x ∈ b.
Proof.
  unfold union_names. rewrite elem_of_elements, elem_of_union, !elem_of_list_to_set. done.
Qed.

Lemma union_names_NoDup a b : NoDup (union_names a b).
Proof. apply NoDup_elements. Qed.







(** C5: lowering [target = if cond (inputs) { then } else { else }] appends
    to the graph, after what the condition and the inputs needed, exactly
    one [builtin/switch] node, whose [pred] is wired from the first port of
    the condition and whose [if_true] and [if_false] are wired from the
    two constant nodes that carry the lowered sub-graphs, and one
    [builtin/eval] node, whose [thunk] is wired from the [value] port of
    the switch node and whose other inputs are the named inputs.  [target]
    is bound to the eval node with a signature whose inputs are the names
    of the inputs and whose outputs are, without repetition, the output
    names of the two sub-graphs together.  The graph is the result of the
    two builder calls of [visitIfBlock], the one for the switch node with
    the two sub-graphs as values, the one for the eval node. *)
Theorem if_block_lowering (target : string) (condition : Outport)
    (inps : option Named_map) (if_block else_block : Code_block)
    (self self3 : TkslTopVisitor) :
  visitIfBlock target condition inps if_block else_block self = Ok (tt, self3) ->
  exists cond ports self1 inputs self2 sub if_g else_g fd,
    visitOutport condition self = Ok (cond :: ports, self1) /\
    from_option visitNamed_map (ret []) inps self1 = Ok (inputs, self2) /\
    lowered_in (self_sig self) sub if_block if_g /\
    lowered_in (self_sig self) sub else_block else_g /\
    let sw_nod := NodeIdx (length (graph_nodes (self_graph self2))) in
    let true_n := NodeIdx (1 + length (graph_nodes (self_graph self2))) in
    let false_n := NodeIdx (2 + length (graph_nodes (self_graph self2))) in
    let eval_n := NodeIdx (3 + length (graph_nodes (self_graph self2))) in
    graph_nodes (self_graph self3)
    = graph_nodes (self_graph self2)
      ++ [FunctionNode "builtin/switch"; ConstNode (VGraph if_g);
          ConstNode (VGraph else_g); FunctionNode "builtin/eval"] /\
    graph_edges (self_graph self3)
    = graph_edges (self_graph self2)
      ++ [mkEdge cond (mkNodePort sw_nod "pred");
          mkEdge (mkNodePort true_n "value") (mkNodePort sw_nod "if_true");
          mkEdge (mkNodePort false_n "value") (mkNodePort sw_nod "if_false");
          mkEdge (mkNodePort sw_nod "value") (mkNodePort eval_n "thunk")]
      ++ edges_of_named eval_n inputs /\
    output_vars (self_context self3) !! target = Some (eval_n, fd) /\
    fd_inputs fd = OrderedDict.keys inputs /\
    NoDup (fd_outputs fd) /\
    (forall x, x ∈ fd_outputs fd <-> x ∈ graph_outputs if_g \/ x ∈ graph_outputs else_g) /\
    exists g1,
      add_node (self_graph self2) "builtin/switch"
        [("pred", FromPort cond); ("if_true", Supplied (VGraph if_g));
         ("if_false", Supplied (VGraph else_g))] = Ok (sw_nod, g1) /\
      add_node g1 "builtin/eval"
        (("thunk", FromPort (getport sw_nod "value")) :: from_ports inputs)
      = Ok (eval_n, self_graph self3).
Proof.
  intros Hrun.
  apply visitIfBlock_Ok in Hrun
    as (cond & ports & self1 & inputs & self2 & if_g & else_g & fin1 & fin2
        & Hcond & Hin & Hif & Helse & _ & Hctx & Hnodes & Hedges & Hcalls).
  destruct (frame_visitOutport _ _ _ _ Hcond) as (Hs1 & _ & _).
  destruct (frame_named_inputs _ _ _ _ Hin) as (Hs2 & _ & _).
  rewrite Hs2, Hs1 in Hif, Helse.
  eexists cond, ports, self1, inputs, self2, _, if_g, else_g, _.
  split; [done|]. split; [done|].
  split; [by exists fin1|]. split; [by exists fin2|]. cbv zeta.
  split; [exact Hnodes|]. split; [exact Hedges|].
  split; [rewrite Hctx; simpl; apply lookup_insert_eq|].
  split; [exact (nested_context_inputs (self_context self2) inputs)|].
  rewrite fake_func_outputs.
  split; [apply first_occurrences_NoDup|].
  split; [|exact Hcalls].
  intros x. rewrite first_occurrences_spec, union_names_spec.
  split; [tauto|]. intros H. split; [done|]. by intros ?%elem_of_nil.
Qed.

Lemma if_block_lowering_witness :
  exists self3 fd,
    visitIfBlock "r" (Samples.id_ "a") Samples.if_inputs Samples.then_block
                 Samples.else_block Samples.in_body = Ok (tt, self3) /\
    skipn 3 (graph_nodes (self_graph self3))
    = [FunctionNode "builtin/switch";
       ConstNode (VGraph (mkGraph []
         [mkEdge (mkNodePort InputRef "x") (mkNodePort OutputRef "v")]));
       ConstNode (VGraph (mkGraph [ConstNode (VInt 2)]
         [mkEdge (mkNodePort (NodeIdx 0) "value") (mkNodePort OutputRef "v");
          mkEdge (mkNodePort InputRef "x") (mkNodePort OutputRef "w")]));
       FunctionNode "builtin/eval"] /\
    skipn 1 (graph_edges (self_graph self3))
    = [mkEdge (mkNodePort InputRef "a") (mkNodePort (NodeIdx 3) "pred");
       mkEdge (mkNodePort (NodeIdx 4) "value") (mkNodePort (NodeIdx 3) "if_true");
       mkEdge (mkNodePort (NodeIdx 5) "value") (mkNodePort (NodeIdx 3) "if_false");
       mkEdge (mkNodePort (NodeIdx 3) "value") (mkNodePort (NodeIdx 6) "thunk");
       mkEdge (mkNodePort (NodeIdx 2) "q") (mkNodePort (NodeIdx 6) "x")] /\
    output_vars (self_context self3) !! "r" = Some (NodeIdx 6, fd) /\
    fd_inputs fd = ["x"] /\
    (forall x, x ∈ fd_outputs fd <-> x ∈ ["v"] \/ x ∈ ["v"; "w"]).
Proof.
  destruct (visitIfBlock "r" (Samples.id_ "a") Samples.if_inputs Samples.then_block
              Samples.else_block Samples.in_body) as [[[] self3]|e] eqn:Hrun;
    [|by vm_compute in Hrun].
  destruct (if_block_lowering _ _ _ _ _ _ _ Hrun)
    as (cond & ports & self1 & inputs & self2 & sub & if_g & else_g & fd
        & Hcond & Hin & [fin1 Hif] & [fin2 Helse] & Hnodes & Hedges & Hvar & Hfdin & _ & Hout & _).
  vm_compute in Hcond. injection Hcond as <- <- <-.
  vm_compute in Hin. injection Hin as <- <-.
  exists self3, fd. split; [done|].
  assert (if_g = mkGraph [] [mkEdge (mkNodePort InputRef "x") (mkNodePort OutputRef "v")]
          /\ else_g = mkGraph [ConstNode (VInt 2)]
               [mkEdge (mkNodePort (NodeIdx 0) "value") (mkNodePort OutputRef "v");
                mkEdge (mkNodePort InputRef "x") (mkNodePort OutputRef "w")])
    as [-> ->].
  { vm_compute in Hrun. injection Hrun as <-. simpl in Hnodes.
    injection Hnodes as <- <-. done. }
  split; [by rewrite Hnodes|]. split; [by rewrite Hedges|].
  split; [exact Hvar|]. split; [exact Hfdin | exact Hout].
Defined.

(** C6: lowering [target = loop (inputs) { body } while { cond }] appends to
    the graph, after what the inputs needed, exactly one [builtin/loop]
    node, whose [condition] and [body] are wired from the two constant
    nodes that carry the lowered condition sub-graph and the lowered body
    sub-graph, and whose other inputs are the named inputs, each on the
    port of its name.  [target] is bound to that node with a signature
    whose outputs are the output ports of the body sub-graph, each once.
    The graph is the result of the one builder call of [visitLoop], with
    the two sub-graphs as values. *)
Theorem loop_lowering (target : string) (inps : option Named_map)
    (body condition : Code_block) (self self3 : TkslTopVisitor) :
  visitLoop target inps body condition self = Ok (tt, self3) ->
  exists inputs self2 sub body_g condition_g fd,
    from_option visitNamed_map (ret []) inps self = Ok (inputs, self2) /\
    lowered_in (self_sig self) sub body body_g /\
    lowered_in (self_sig self) sub condition condition_g /\
    let loop_nod := NodeIdx (length (graph_nodes (self_graph self2))) in
    let condition_n := NodeIdx (1 + length (graph_nodes (self_graph self2))) in
    let body_n := NodeIdx (2 + length (graph_nodes (self_graph self2))) in
    graph_nodes (self_graph self3)
    = graph_nodes (self_graph self2)
      ++ [FunctionNode "builtin/loop"; ConstNode (VGraph condition_g);
          ConstNode (VGraph body_g)] /\
    graph_edges (self_graph self3)
    = graph_edges (self_graph self2)
      ++ [mkEdge (mkNodePort condition_n "value") (mkNodePort loop_nod "condition");
          mkEdge (mkNodePort body_n "value") (mkNodePort loop_nod "body")]
      ++ edges_of_named loop_nod inputs /\
    output_vars (self_context self3) !! target = Some (loop_nod, fd) /\
    fd_inputs fd = OrderedDict.keys inputs /\
    fd_outputs fd = first_occurrences [] (graph_outputs body_g) /\
    NoDup (fd_outputs fd) /\
    (forall x, x ∈ fd_outputs fd <-> x ∈ graph_outputs body_g) /\
    add_node (self_graph self2) "builtin/loop"
      (("condition", Supplied (VGraph condition_g))
       :: ("body", Supplied (VGraph body_g)) :: from_ports inputs)
    = Ok (loop_nod, self_graph self3).
Proof.
  intros Hrun.
  apply visitLoop_Ok in Hrun
    as (inputs & self2 & body_g & condition_g & fin1 & fin2 & Hin & Hbody & Hcond & _
        & Hctx & Hnodes & Hedges & Hcall).
  destruct (frame_named_inputs _ _ _ _ Hin) as (Hs2 & _ & _).
  rewrite Hs2 in Hbody, Hcond.
  eexists inputs, self2, _, body_g, condition_g, _.
  split; [done|]. split; [by exists fin1|]. split; [by exists fin2|]. cbv zeta.
  split; [exact Hnodes|]. split; [exact Hedges|].
  split; [rewrite Hctx; simpl; apply lookup_insert_eq|].
  split; [exact (nested_context_inputs (self_context self2) inputs)|].
  rewrite fake_func_outputs. split; [done|].
  split; [apply first_occurrences_NoDup|].
  split; [|exact Hcall].
  intros x. rewrite first_occurrences_spec.
  split; [tauto|]. intros H. split; [done|]. by intros ?%elem_of_nil.
Qed.

Lemma loop_lowering_witness :
  exists self3 fd,
    visitLoop "r" Samples.loop_inputs Samples.loop_body Samples.loop_condition
              Samples.in_body = Ok (tt, self3) /\
    skipn 3 (graph_nodes (self_graph self3))
    = [FunctionNode "builtin/loop";
       ConstNode (VGraph (mkGraph []
         [mkEdge (mkNodePort InputRef "x") (mkNodePort OutputRef "pred")]));
       ConstNode (VGraph (mkGraph [ConstNode (VInt 1); FunctionNode "builtin/iadd"]
         [mkEdge (mkNodePort InputRef "x") (mkNodePort (NodeIdx 1) "a");
          mkEdge (mkNodePort (NodeIdx 0) "value") (mkNodePort (NodeIdx 1) "b");
          mkEdge (mkNodePort (NodeIdx 1) "c") (mkNodePort OutputRef "x")]))] /\
    skipn 1 (graph_edges (self_graph self3))
    = [mkEdge (mkNodePort (NodeIdx 4) "value") (mkNodePort (NodeIdx 3) "condition");
       mkEdge (mkNodePort (NodeIdx 5) "value") (mkNodePort (NodeIdx 3) "body");
       mkEdge (mkNodePort InputRef "a") (mkNodePort (NodeIdx 3) "x")] /\
    output_vars (self_context self3) !! "r" = Some (NodeIdx 3, fd) /\
    fd_inputs fd = ["x"] /\
    fd_outputs fd = ["x"].
Proof.
  destruct (visitLoop "r" Samples.loop_inputs Samples.loop_body Samples.loop_condition
              Samples.in_body) as [[[] self3]|e] eqn:Hrun;
    [|by vm_compute in Hrun].
  destruct (loop_lowering _ _ _ _ _ _ Hrun)
    as (inputs & self2 & sub & body_g & condition_g & fd
        & Hin & _ & _ & Hnodes & Hedges & Hvar & Hfdin & Hfdout & _).
  vm_compute in Hin. injection Hin as <- <-.
  exists self3, fd. split; [done|].
  assert (condition_g = mkGraph []
            [mkEdge (mkNodePort InputRef "x") (mkNodePort OutputRef "pred")]
          /\ body_g = mkGraph [ConstNode (VInt 1); FunctionNode "builtin/iadd"]
             [mkEdge (mkNodePort InputRef "x") (mkNodePort (NodeIdx 1) "a");
              mkEdge (mkNodePort (NodeIdx 0) "value") (mkNodePort (NodeIdx 1) "b");
              mkEdge (mkNodePort (NodeIdx 1) "c") (mkNodePort OutputRef "x")])
    as [-> ->].
  { vm_compute in Hrun. injection Hrun as <-. simpl in Hnodes.
    injection Hnodes as <- <-. done. }
  split; [by rewrite Hnodes|]. split; [by rewrite Hedges|].
  split; [exact Hvar|]. split; [exact Hfdin | exact Hfdout].
Defined.

(** ** Function definitions *)

Lemma visitGraph_type_unfold al par_in par_out :
  visitGraph_type al (mkGraph_type par_in par_out)
  = rbind (visitF_param_list al par_in) (fun ins =>
    rbind (visitF_param_list al par_out) (fun outs =>
      Ok (mkFunctionDefinition (OrderedDict.keys ins) (OrderedDict.keys outs)
                               (Some (mkGraphType ins outs))))).
Proof.
  simpl. unfold visitF_param_list.
  change (fun p : string * Type_ =>
            let '(label, annotation) := p in
            rbind (visitType_ al annotation) (fun ty => Ok (label, ty)))
    with (visitF_param al).
  destruct (map_result (visitF_param al) par_in); simpl; [|done].
  destruct (map_result (visitF_param al) par_out); simpl; done.
Qed.

Lemma visitF_param_list_keys al par_list row :
  visitF_param_list al par_list = Ok row ->
  OrderedDict.keys row = first_occurrences [] (map fst par_list).
Proof.
  unfold visitF_param_list. intros (items & Hitems & [= <-])%rbind_Ok.
  rewrite keys_of_items. f_equal.
  revert items Hitems. induction par_list as [|[label ty] l IH]; intros items; simpl.
  - by intros [= <-].
  - intros (it & (t & _ & [= <-])%rbind_Ok & (its & Hits & [= <-])%rbind_Ok)%rbind_Ok.
    simpl. f_equal. by apply IH.
Qed.

Lemma ports_of_row_keys names content :
  NoDup names -> OrderedDict.keys (ports_of_row names content) = names.
Proof.
  intros Hnd. unfold ports_of_row. rewrite keys_of_items, map_map. simpl.
  rewrite map_id. apply first_occurrences_id; [done|]. intros x _ ?%elem_of_nil. done.
Qed.

(** C2 (as the code has it): for a function definition that lowers, the
    signature stored with the graph in the functions table lists the
    declared input names and the declared output names, each once in order
    of first occurrence, hence the declared sequences themselves when no
    name is repeated; the body is lowered in a context whose inputs and
    outputs are these same sequences.  Which ports the boundary nodes of the
    graph carry is left to the body. *)
Theorem funcdef_port_order (name : string) (par_in par_out : list (string * Type_))
    (code_block : Code_block) (self self1 : TkslTopVisitor) :
  visitFuncDef name (mkGraph_type par_in par_out) code_block self = Ok (tt, self1) ->
  exists graph f_def context,
    functions (self_context self1) !! name = Some (graph, f_def) /\
    lowered_in (self_sig self) context code_block graph /\
    fd_inputs f_def = first_occurrences [] (map fst par_in) /\
    fd_outputs f_def = first_occurrences [] (map fst par_out) /\
    OrderedDict.keys (inputs context) = fd_inputs f_def /\
    OrderedDict.keys (outputs context) = fd_outputs f_def /\
    (NoDup (map fst par_in) -> fd_inputs f_def = map fst par_in) /\
    (NoDup (map fst par_out) -> fd_outputs f_def = map fst par_out).
Proof.
  unfold visitFuncDef. intros H.
  apply bind_Ok in H as (c & s & Hc & H). injection Hc as <- <-.
  apply bind_Ok in H as (f_def & s & Hdef & H). apply lift_Ok in Hdef as [Hdef ->].
  apply bind_Ok in H as (graph & s & Hsub & H).
  apply sub_visit_Ok in Hsub as (-> & fin & Hsub).
  injection H as <-. simpl.
  rewrite visitGraph_type_unfold in Hdef.
  apply rbind_Ok in Hdef as (ins & Hins & Hdef).
  apply rbind_Ok in Hdef as (outs & Houts & [= <-]).
  apply visitF_param_list_keys in Hins, Houts.
  eexists graph, _, _. split; [apply lookup_insert_eq|].
  split; [by exists fin|]. simpl.
  split; [exact Hins|]. split; [exact Houts|].
  split; [apply ports_of_row_keys; rewrite Hins; apply first_occurrences_NoDup|].
  split; [apply ports_of_row_keys; rewrite Houts; apply first_occurrences_NoDup|].
  split; intros Hnd.
  - rewrite Hins. apply first_occurrences_id; [done|]. intros x _ ?%elem_of_nil. done.
  - rewrite Houts. apply first_occurrences_id; [done|]. intros x _ ?%elem_of_nil. done.
Qed.

Lemma funcdef_port_order_witness :
  exists self1 graph f_def,
    visitFuncDef "main" (mkGraph_type Samples.int_pair [("r", TypeInt)])
      [CallMap "s" (Samples.call "iadd" (ArgPositional [Samples.id_ "a"; Samples.id_ "b"]));
       OutputCall (Some (ArgPositional [Samples.id_ "s"]))]
      (new_visitor Samples.catalog empty_context) = Ok (tt, self1) /\
    functions (self_context self1) !! "main" = Some (graph, f_def) /\
    fd_inputs f_def = ["a"; "b"] /\
    fd_outputs f_def = ["r"].
Proof.
  destruct (visitFuncDef "main" (mkGraph_type Samples.int_pair [("r", TypeInt)])
      [CallMap "s" (Samples.call "iadd" (ArgPositional [Samples.id_ "a"; Samples.id_ "b"]));
       OutputCall (Some (ArgPositional [Samples.id_ "s"]))]
      (new_visitor Samples.catalog empty_context)) as [[[] self1]|e] eqn:Hrun;
    [|by vm_compute in Hrun].
  destruct (funcdef_port_order _ _ _ _ _ _ Hrun)
    as (graph & f_def & context & Hfun & _ & Hin & Hout & _).
  exists self1, graph, f_def. split; [done|]. split; [exact Hfun|].
  split; [exact Hin | exact Hout].
Defined.

(** C2 fails as stated: for
    [f(a: Int, a: Bool) -> (r: Int) { output(q = a); }] the boundary output
    node of the lowered graph carries the port [q], not the declared [r],
    and the recorded signature and the boundary input node have the single
    input [a] where two parameters are declared. *)
Lemma funcdef_boundary_differs :
  exists self1 graph f_def,
    visitFuncDef "f" Samples.repeated_params Samples.renamed_output
      (new_visitor Samples.catalog empty_context) = Ok (tt, self1) /\
    functions (self_context self1) !! "f" = Some (graph, f_def) /\
    graph_outputs graph = ["q"] /\ graph_outputs graph <> ["r"] /\
    graph_inputs graph = ["a"] /\ graph_inputs graph <> ["a"; "a"] /\
    fd_inputs f_def = ["a"] /\ fd_inputs f_def <> ["a"; "a"].
Proof.
  destruct (visitFuncDef "f" Samples.repeated_params Samples.renamed_output
              (new_visitor Samples.catalog empty_context)) as [[[] self1]|e] eqn:Hrun;
    [|by vm_compute in Hrun].
  vm_compute in Hrun. injection Hrun as <-.
  eexists _, _, _. split; [reflexivity|]. split; [reflexivity|].
  repeat split; try reflexivity; discriminate.
Qed.

(** * Further properties of the visitor *)

(** ** Function names and calls *)

Lemma visitF_name_Ok f self r self1 :
  visitF_name f self = Ok (r, self1) -> self1 = self.
Proof.
  unfold visitF_name, bind, get_sig, get_context, ret, raise.
  destruct (self_sig self !! default "builtin" (fn_namespace f) ≫= _); [by intros [= _ <-]|].
  destruct (functions (self_context self) !! fn_func_name f) as [[g fd]|]; [|done].
  by intros [= _ <-].
Qed.

(** X1: a function name found in the catalog, under its namespace or under
    [builtin], resolves to the canonical name and the port orders of the
    catalog entry, also when a local function has the same name.  A name
    that is not in the catalog resolves to the local function of that
    name, whatever namespace was written. *)
Theorem function_name_resolution (self : TkslTopVisitor) (f : F_name) :
  (forall ns tk,
     self_sig self !! default "builtin" (fn_namespace f) = Some ns ->
     ns !! fn_func_name f = Some tk ->
     visitF_name f self = Ok ((tf_name tk, def_from_tkfunc tk), self)) /\
  (~ in_catalog (self_sig self) f ->
   forall g fd,
     functions (self_context self) !! fn_func_name f = Some (g, fd) ->
     visitF_name f self = Ok ((fn_func_name f, fd), self)).
Proof.
  split.
  - intros ns tk Hns Htk. unfold visitF_name, bind, get_sig. simpl.
    rewrite Hns. simpl. by rewrite Htk.
  - intros Hcat g fd Hloc. unfold visitF_name, bind, get_sig, get_context. simpl.
    destruct (self_sig self !! default "builtin" (fn_namespace f)) as [ns|] eqn:Ens; simpl.
    + destruct (ns !! fn_func_name f) as [tk|] eqn:Etk.
      * exfalso. apply Hcat. by exists ns, tk.
      * by rewrite Hloc.
    + by rewrite Hloc.
Qed.

Lemma function_name_resolution_witness :
  visitF_name (mkF_name None "iadd") Samples.local_iadd
  = Ok (("builtin/iadd", mkFunctionDefinition ["a"; "b"] ["c"] None), Samples.local_iadd) /\
  visitF_name (mkF_name (Some "nowhere") "f") Samples.in_body
  = Ok (("f", mkFunctionDefinition [] [] None), Samples.in_body).
Proof.
  split.
  - pose proof (proj1 (function_name_resolution Samples.local_iadd (mkF_name None "iadd")))
      as H. simpl in H.
    destruct (Samples.catalog !! "builtin") as [ns|] eqn:Ens; [|by vm_compute in Ens].
    specialize (H ns (mkTierkreisFunction "builtin/iadd" ["a"; "b"] ["c"]) eq_refl).
    apply H. vm_compute in Ens. injection Ens as <-. reflexivity.
  - refine (proj2 (function_name_resolution Samples.in_body (mkF_name (Some "nowhere") "f"))
              _ empty_graph (mkFunctionDefinition [] [] None) eq_refl).
    intros (ns & tk & Hns & _). discriminate Hns.
Defined.

Lemma frame_visitArglist a expected : frame (visitArglist a expected).
Proof.
  destruct a as [port_l|arg_l|]; simpl.
  - apply frame_visitNamed_map.
  - apply frame_bind; [apply frame_visitPositional_args|]. intros ?. apply frame_ret.
  - apply frame_raise.
Qed.

Lemma frame_visitNode_inputs c : frame (visitNode_inputs c).
Proof.
  destruct c as [f args|tp named]; simpl.
  - apply frame_bind; [apply frame_visitF_name|]. intros [f_name f_def].
    apply frame_bind.
    { destruct args; [apply frame_visitArglist | apply frame_raise]. }
    intros arglist. frame_auto.
  - apply frame_bind; [apply frame_visitThunkable_port|]. intros ports.
    apply frame_bind; [apply frame_lift|]. intros outport.
    apply frame_bind.
    { destruct named; [apply frame_visitNamed_map | apply frame_ret]. }
    intros arglist. frame_auto.
Qed.

(** X2: a call that lowers adds, after what its arguments needed, exactly
    one node: a boxed node carrying the graph of the local function when
    the resolved name is in the local functions table, a plain node with
    the resolved name otherwise.  The node is wired from the bound
    arguments, the call returns the signature found for the name, and the
    context of the visitor is as before. *)
Theorem call_lowering (f : F_name) (args : option Arglist) (self self2 : TkslTopVisitor)
    (n : NodeRef) (fd : FunctionDefinition) :
  visitFuncCall f args self = Ok ((n, fd), self2) ->
  exists f_name argctx arglist self1,
    visitF_name f self = Ok ((f_name, fd), self) /\
    args = Some argctx /\
    visitArglist argctx (fd_inputs fd) self = Ok (arglist, self1) /\
    n = NodeIdx (length (graph_nodes (self_graph self1))) /\
    graph_nodes (self_graph self2)
    = graph_nodes (self_graph self1)
      ++ [match functions (self_context self) !! f_name with
          | Some (g, _) => BoxNode g f_name
          | None => FunctionNode f_name
          end] /\
    graph_edges (self_graph self2)
    = graph_edges (self_graph self1) ++ edges_of_named n arglist /\
    self_context self2 = self_context self.
Proof.
  unfold visitFuncCall. simpl. intros H.
  apply bind_Ok in H as ([f_name f_def] & s0 & Hname & H).
  pose proof (visitF_name_Ok _ _ _ _ Hname) as ->.
  apply bind_Ok in H as (arglist & self1 & Hargs & H).
  destruct args as [argctx|]; [|done].
  apply bind_Ok in H as (c & s & Hc & H). injection Hc as <- <-.
  apply bind_Ok in H as (noderef & s2 & Hnode & H). injection H as <- <- <-.
  destruct (frame_visitArglist _ _ _ _ _ Hargs) as (_ & Hctx & _).
  exists f_name, argctx, arglist, self1. split; [done|]. split; [done|]. split; [done|].
  rewrite Hctx in Hnode.
  destruct (functions (self_context self) !! f_name) as [[g fd']|].
  - apply graph_add_box_Ok in Hnode as (-> & _ & Hc2 & Hn & He).
    rewrite incoming_consts_from_ports in Hn. rewrite incoming_edges_from_ports in He.
    repeat split; try done. congruence.
  - apply graph_add_node_Ok in Hnode as (-> & _ & Hc2 & Hn & He).
    rewrite incoming_consts_from_ports in Hn. rewrite incoming_edges_from_ports in He.
    repeat split; try done. congruence.
Qed.

Lemma call_lowering_witness :
  exists fd self2,
    visitFuncCall (mkF_name None "f") (Some (ArgNamed [("x", Samples.id_ "a")]))
                  Samples.in_body = Ok ((NodeIdx 3, fd), self2) /\
    skipn 3 (graph_nodes (self_graph self2)) = [BoxNode empty_graph "f"] /\
    skipn 1 (graph_edges (self_graph self2))
    = [mkEdge (mkNodePort InputRef "a") (mkNodePort (NodeIdx 3) "x")].
Proof.
  destruct (visitFuncCall (mkF_name None "f") (Some (ArgNamed [("x", Samples.id_ "a")]))
              Samples.in_body) as [[[n fd] self2]|e] eqn:Hrun; [|by vm_compute in Hrun].
  destruct (call_lowering _ _ _ _ _ _ Hrun)
    as (f_name & argctx & arglist & self1 & Hname & Hsome & Hargs & Hn & Hnodes & Hedges & _).
  injection Hsome as <-.
  vm_compute in Hname. injection Hname as <- <-.
  vm_compute in Hargs. injection Hargs as <- <-. subst n.
  eexists. exists self2. split; [reflexivity|].
  split; [by rewrite Hnodes | by rewrite Hedges].
Defined.

(** ** Expressions and argument lists *)

(** X3: resolving an expression, a call or an argument list never changes
    the signature or the context of the visitor (no name is bound), and it
    keeps every node and edge of the graph, adding new ones after them. *)
Theorem expression_frame (self self1 : TkslTopVisitor) :
  (forall o ports,
     visitOutport o self = Ok (ports, self1) ->
     self_sig self1 = self_sig self /\ self_context self1 = self_context self /\
     extends (self_graph self) (self_graph self1)) /\
  (forall c r,
     visitNode_inputs c self = Ok (r, self1) ->
     self_sig self1 = self_sig self /\ self_context self1 = self_context self /\
     extends (self_graph self) (self_graph self1)) /\
  (forall a expected kwargs,
     visitArglist a expected self = Ok (kwargs, self1) ->
     self_sig self1 = self_sig self /\ self_context self1 = self_context self /\
     extends (self_graph self) (self_graph self1)).
Proof.
  split; [|split].
  - intros o ports. apply frame_visitOutport.
  - intros c r. apply frame_visitNode_inputs.
  - intros a expected kwargs. apply frame_visitArglist.
Qed.

Lemma expression_frame_witness :
  exists ports self1,
    visitOutport (OutNodeInputs (Samples.call "iadd"
                    (ArgPositional [Samples.id_ "a"; OutConst (ConstInt 1)])))
                 Samples.in_body = Ok (ports, self1) /\
    self_context self1 = self_context Samples.in_body /\
    extends (self_graph Samples.in_body) (self_graph self1).
Proof.
  destruct (visitOutport (OutNodeInputs (Samples.call "iadd"
              (ArgPositional [Samples.id_ "a"; OutConst (ConstInt 1)]))) Samples.in_body)
    as [[ports self1]|e] eqn:Hrun; [|by vm_compute in Hrun].
  exists ports, self1. split; [reflexivity|].
  exact (proj2 (proj1 (expression_frame Samples.in_body self1) _ _ Hrun)).
Defined.

Lemma mapM_app {A B} (f : A -> M B) (l1 l2 : list A) self :
  mapM f (l1 ++ l2) self
  = match mapM f l1 self with
    | Ok (a, s1) =>
        match mapM f l2 s1 with
        | Ok (b, s2) => Ok (a ++ b, s2)
        | Raise e => Raise e
        end
    | Raise e => Raise e
    end.
Proof.
  revert self. induction l1 as [|x l1 IH]; intros self; simpl.
  - unfold ret. by destruct (mapM f l2 self) as [[b s2]|e].
  - unfold bind, ret. destruct (f x self) as [[b s]|e]; [|done].
    rewrite IH. destruct (mapM f l1 s) as [[a s1]|e]; [|done].
    by destruct (mapM f l2 s1) as [[b' s2]|e].
Qed.

(** X4: positional arguments are flattened.  One argument contributes all
    the ports it resolves to; the ports of a list of arguments are those of
    its front part followed by those of the rest, resolved in the visitor
    the front part left; and an argument that fails makes the list fail
    with the same exception, whatever follows it. *)
Theorem positional_args_flattened (self : TkslTopVisitor) :
  (forall o ports self1,
     visitOutport o self = Ok (ports, self1) ->
     visitPositional_args [o] self = Ok (ports, self1)) /\
  (forall l1 l2 p1 p2 self1 self2,
     visitPositional_args l1 self = Ok (p1, self1) ->
     visitPositional_args l2 self1 = Ok (p2, self2) ->
     visitPositional_args (l1 ++ l2) self = Ok (p1 ++ p2, self2)) /\
  (forall l1 l2 e,
     visitPositional_args l1 self = Raise e ->
     visitPositional_args (l1 ++ l2) self = Raise e).
Proof.
  unfold visitPositional_args, visitPositional_args_over. split; [|split].
  - intros o ports self1 Ho. simpl. unfold bind. rewrite Ho. simpl.
    by rewrite app_nil_r.
  - intros l1 l2 p1 p2 self1 self2 H1 H2.
    apply bind_Ok in H1 as (a & s1 & H1 & [= <- <-]).
    apply bind_Ok in H2 as (b & s2 & H2 & [= <- <-]).
    unfold bind. rewrite mapM_app, H1, H2. simpl. by rewrite concat_app.
  - intros l1 l2 e H1. unfold bind in *. rewrite mapM_app.
    destruct (mapM visitOutport l1 self) as [[a s1]|e']; [done|]. done.
Qed.

Lemma positional_args_flattened_witness :
  visitPositional_args [Samples.id_ "d"; Samples.id_ "k"] Samples.in_body
  = Ok ([mkNodePort (NodeIdx 2) "q"; mkNodePort (NodeIdx 2) "r";
         mkNodePort (NodeIdx 1) "value"], Samples.in_body).
Proof.
  exact (proj1 (proj2 (positional_args_flattened Samples.in_body))
           [Samples.id_ "d"] [Samples.id_ "k"]
           [mkNodePort (NodeIdx 2) "q"; mkNodePort (NodeIdx 2) "r"]
           [mkNodePort (NodeIdx 1) "value"] Samples.in_body Samples.in_body
           eq_refl eq_refl).
Defined.

Section LastWins.
Context {V : Type}.

Lemma getitem_app (k : string) (d1 d2 : list (string * V)) :
  OrderedDict.getitem k (d1 ++ d2)
  = match OrderedDict.getitem k d1 with
    | Some v => Some v
    | None => OrderedDict.getitem k d2
    end.
Proof.
  induction d1 as [|[k' v'] d1 IH]; simpl; [done|]. by destruct (String.eqb k k').
Qed.

Lemma getitem_fold_setitem (k : string) (items d0 : list (string * V)) :
  OrderedDict.getitem k (fold_left (fun d kv => OrderedDict.setitem kv.1 kv.2 d) items d0)
  = match OrderedDict.getitem k (reverse items) with
    | Some v => Some v
    | None => OrderedDict.getitem k d0
    end.
Proof.
  revert d0. induction items as [|[k1 v1] items IH]; intros d0; simpl; [done|].
  rewrite IH, reverse_cons, getitem_app, getitem_setitem. simpl. rewrite eqb_decide.
  destruct (OrderedDict.getitem k (reverse items)); [done|]. by case_bool_decide.
Qed.

Lemma getitem_of_items (k : string) (items : list (string * V)) :
  OrderedDict.getitem k (OrderedDict.of_items items)
  = OrderedDict.getitem k (reverse items).
Proof.
  unfold OrderedDict.of_items. rewrite getitem_fold_setitem.
  by destruct (OrderedDict.getitem k (reverse items)).
Qed.
End LastWins.

(** X5: in the dictionary a named map evaluates to, each written name
    appears once, at the place of its first occurrence, bound to the port
    of its last occurrence; every entry of the map is resolved, also those
    whose binding is replaced. *)
Theorem named_map_repeated_names (port_l : Named_map) (self self1 : TkslTopVisitor)
    (d : list (string * NodePort)) :
  visitNamed_map port_l self = Ok (d, self1) ->
  exists items,
    mapM visitPort_map port_l self = Ok (items, self1) /\
    map fst items = map fst port_l /\
    OrderedDict.keys d = first_occurrences [] (map fst port_l) /\
    NoDup (OrderedDict.keys d) /\
    forall k, OrderedDict.getitem k d = OrderedDict.getitem k (reverse items).
Proof.
  unfold visitNamed_map, visitNamed_map_over. intros H.
  apply bind_Ok in H as (items & s & Hitems & [= <- <-]).
  pose proof (mapM_visitPort_map_names _ _ _ _ Hitems) as Hnames.
  exists items. split; [done|]. split; [done|].
  rewrite keys_of_items, Hnames.
  split; [done|]. split; [apply first_occurrences_NoDup|].
  intros k. apply getitem_of_items.
Qed.

Lemma named_map_repeated_names_witness :
  visitNamed_map [("x", Samples.id_ "a"); ("y", Samples.id_ "k"); ("x", Samples.id_ "s")]
                 Samples.in_body
  = Ok ([("x", mkNodePort (NodeIdx 0) "c"); ("y", mkNodePort (NodeIdx 1) "value")],
        Samples.in_body) /\
  exists items,
    map fst items = ["x"; "y"; "x"] /\
    OrderedDict.getitem "x" (reverse items) = Some (mkNodePort (NodeIdx 0) "c").
Proof.
  split; [reflexivity|].
  destruct (named_map_repeated_names
              [("x", Samples.id_ "a"); ("y", Samples.id_ "k"); ("x", Samples.id_ "s")]
              Samples.in_body Samples.in_body
              [("x", mkNodePort (NodeIdx 0) "c"); ("y", mkNodePort (NodeIdx 1) "value")]
              eq_refl) as (items & _ & Hnames & _ & _ & Hlast).
  exists items. split; [exact Hnames|]. by rewrite <- Hlast.
Defined.

(** X6: an expression that resolves to no port at all cannot be used
    where one port is taken: as a named argument, as the graph value of a
    thunk, or as the condition of an [if], the lookup of the first port
    raises [IndexError]. *)
Theorem empty_port_list_fails (self self1 : TkslTopVisitor) :
  (forall inport outport,
     visitOutport outport self = Ok ([], self1) ->
     visitPort_map (inport, outport) self = Raise IndexError) /\
  (forall tp named,
     visitThunkable_port tp self = Ok ([], self1) ->
     visitThunk tp named self = Raise IndexError) /\
  (forall target condition inps if_block else_block,
     visitOutport condition self = Ok ([], self1) ->
     visitIfBlock target condition inps if_block else_block self = Raise IndexError).
Proof.
  split; [|split].
  - intros inport outport H. unfold visitPort_map, visitPort_map_over, bind. by rewrite H.
  - intros tp named H. unfold visitThunk. simpl. unfold bind. by rewrite H.
  - intros target condition inps if_block else_block H.
    unfold visitIfBlock, visitIfBlock_over, bind. by rewrite H.
Qed.

Lemma empty_port_list_fails_witness :
  exists self1,
    visitOutport (OutNodeInputs (Thunk (ThunkID "f") None)) Samples.in_body
    = Ok ([], self1) /\
    visitPort_map ("x", OutNodeInputs (Thunk (ThunkID "f") None)) Samples.in_body
    = Raise IndexError.
Proof.
  destruct (visitOutport (OutNodeInputs (Thunk (ThunkID "f") None)) Samples.in_body)
    as [[ports self1]|e] eqn:Hrun; [|by vm_compute in Hrun].
  assert (ports = []) as -> by (vm_compute in Hrun; congruence).
  exists self1. split; [reflexivity|].
  exact (proj1 (empty_port_list_fails Samples.in_body self1) "x" _ Hrun).
Defined.

Lemma call_kwargs_clash explicit extra k :
  k ∈ map fst explicit -> k ∈ map fst extra ->
  exists msg, call_kwargs explicit extra = Raise (TypeError msg).
Proof.
  intros Hex Hextra. unfold call_kwargs.
  destruct (filter (fun k => k ∈ map fst explicit) (map fst extra)) as [|k' l] eqn:E.
  - exfalso. assert (k ∈ filter (fun k => k ∈ map fst explicit) (map fst extra)) as Hin
      by (by apply list_elem_of_filter).
    rewrite E in Hin. by apply elem_of_nil in Hin.
  - eauto.
Qed.

Lemma from_ports_keys d : map fst (from_ports d) = OrderedDict.keys d.
Proof. unfold from_ports, OrderedDict.keys. rewrite map_map. done. Qed.

(** X7: the names the visitor itself passes as keywords are not available
    as names of named arguments: a thunk with a named argument [thunk], and
    a loop with an input named [condition] or [body], raise [TypeError]
    once their arguments (and, for the loop, its two blocks) are lowered. *)
Theorem reserved_argument_names (self : TkslTopVisitor) :
  (forall tp nm p rest self1 arglist self2,
     visitThunkable_port tp self = Ok (p :: rest, self1) ->
     visitNamed_map nm self1 = Ok (arglist, self2) ->
     "thunk" ∈ OrderedDict.keys arglist ->
     exists msg, visitThunk tp (Some nm) self = Raise (TypeError msg)) /\
  (forall target nm body condition inputs self2 body_g condition_g,
     visitNamed_map nm self = Ok (inputs, self2) ->
     lowered_in (self_sig self2) (nested_context (self_context self2) inputs) body body_g ->
     lowered_in (self_sig self2) (nested_context (self_context self2) inputs)
                condition condition_g ->
     "condition" ∈ OrderedDict.keys inputs \/ "body" ∈ OrderedDict.keys inputs ->
     exists msg, visitLoop target (Some nm) body condition self = Raise (TypeError msg)).
Proof.
  split.
  - intros tp nm p rest self1 arglist self2 Htp Hnm Hin.
    destruct (call_kwargs_clash [("thunk", FromPort p)] (from_ports arglist) "thunk")
      as [msg Hmsg]; [simpl; left | by rewrite from_ports_keys|].
    exists msg. unfold visitThunk. simpl.
    erewrite bind_step by exact Htp.
    erewrite (bind_step (lift (first_item (p :: rest)))) by reflexivity.
    fold visitNamed_map. erewrite bind_step by exact Hnm.
    apply bind_Raise. unfold lift. by rewrite Hmsg.
  - intros target nm body condition inputs self2 body_g condition_g Hnm
      [fin1 Hbody] [fin2 Hcond] Hin.
    destruct (call_kwargs_clash
                [("condition", Supplied (VGraph condition_g));
                 ("body", Supplied (VGraph body_g))] (from_ports inputs)
                (if bool_decide ("condition" ∈ OrderedDict.keys inputs)
                 then "condition" else "body")) as [msg Hmsg].
    { case_bool_decide; simpl; [left | right; left]. }
    { rewrite from_ports_keys. case_bool_decide; [done|]. by destruct Hin. }
    exists msg. unfold visitLoop, visitLoop_over.
    erewrite bind_step by exact Hnm.
    erewrite bind_step by reflexivity.
    assert (Hsub : forall block g fin,
              visitCode_block block
                (new_visitor (self_sig self2)
                   (nested_context (self_context self2) inputs)) = Ok (g, fin) ->
              sub_visit visit (nested_context (self_context self2) inputs) block self2
              = Ok (g, self2)).
    { intros block g fin Hb. unfold sub_visit. erewrite bind_step by reflexivity.
      fold visitCode_block. by rewrite Hb. }
    erewrite bind_step by (eapply Hsub; exact Hbody).
    erewrite bind_step by (eapply Hsub; exact Hcond).
    apply bind_Raise. unfold lift. by rewrite Hmsg.
Qed.

Lemma reserved_argument_names_witness :
  exists msg,
    visitThunk (ThunkID "f") (Some [("thunk", Samples.id_ "a")]) Samples.in_body
    = Raise (TypeError msg).
Proof.
  destruct (visitThunkable_port (ThunkID "f") Samples.in_body)
    as [[ports self1]|e] eqn:Htp; [|by vm_compute in Htp].
  destruct ports as [|p rest]; [by vm_compute in Htp|].
  destruct (visitNamed_map [("thunk", Samples.id_ "a")] self1)
    as [[arglist self2]|e] eqn:Hnm;
    [|vm_compute in Htp; injection Htp as _ _ <-; by vm_compute in Hnm].
  refine (proj1 (reserved_argument_names Samples.in_body) (ThunkID "f")
            [("thunk", Samples.id_ "a")] p rest self1 arglist self2 Htp Hnm _).
  vm_compute in Htp. injection Htp as _ _ <-.
  vm_compute in Hnm. injection Hnm as <- _. simpl. left.
Defined.

(** ** Binding names and using them *)

Lemma not_contains name (d : PortMap) :
  name ∉ OrderedDict.keys d -> OrderedDict.contains name d = false.
Proof.
  intros Hout. destruct (OrderedDict.contains name d) eqn:E; [|done].
  by apply contains_keys in E.
Qed.

(** X8: a constant declaration lowers exactly when its constant
    evaluates.  It then adds one constant node holding the value and binds
    the name to it in [constants]; afterwards the bare name resolves to the
    [value] port of that node, unless the name is also an input, a call
    result or a function, which come first.  When the constant is refused,
    as a struct with a field named by a reserved word is, the declaration
    raises the same exception. *)
Theorem const_decl_then_use (name : string) (c : Const_) (self : TkslTopVisitor) :
  let n := NodeIdx (length (graph_nodes (self_graph self))) in
  (forall v,
     visitConst_ c = Ok v ->
     exists self1,
       visitConstDecl name c self = Ok (tt, self1) /\
       graph_nodes (self_graph self1) = graph_nodes (self_graph self) ++ [ConstNode v] /\
       graph_edges (self_graph self1) = graph_edges (self_graph self) /\
       constants (self_context self1) = <[name := n]> (constants (self_context self)) /\
       (name ∉ OrderedDict.keys (inputs (self_context self)) ->
        output_vars (self_context self) !! name = None ->
        functions (self_context self) !! name = None ->
        visitOutport (OutThunkable (ThunkID name)) self1
        = Ok ([mkNodePort n "value"], self1))) /\
  (forall e, visitConst_ c = Raise e -> visitConstDecl name c self = Raise e).
Proof.
  intros n. split.
  - intros v Hv. unfold visitConstDecl. rewrite Hv.
    eexists. split; [reflexivity|]. simpl.
    split; [done|]. split; [done|]. split; [done|].
    intros Hin Hvar Hfun. unfold bind, get_context. simpl.
    rewrite (not_contains _ _ Hin), Hvar, Hfun, lookup_insert_eq. done.
  - intros e He. unfold visitConstDecl. by rewrite He.
Qed.

Lemma const_decl_then_use_witness :
  (exists self1,
     visitConstDecl "seven" (ConstInt 7) Samples.in_body = Ok (tt, self1) /\
     visitOutport (Samples.id_ "seven") self1
     = Ok ([mkNodePort (NodeIdx 3) "value"], self1)) /\
  visitConstDecl "p" (ConstStruct "" [("x", ConstInt 1); ("class", ConstInt 2)])
                 Samples.in_body
  = Raise (TypeError "Field names must not be keywords: 'class'").
Proof.
  split.
  - destruct (proj1 (const_decl_then_use "seven" (ConstInt 7) Samples.in_body)
                (VInt 7) eq_refl) as (self1 & Hrun & _ & _ & _ & Huse).
    exists self1. split; [exact Hrun|]. apply Huse; [|reflexivity..].
    by apply (bool_decide_eq_false_1 ("seven" ∈ ["a"])).
  - exact (proj2 (const_decl_then_use "p"
                    (ConstStruct "" [("x", ConstInt 1); ("class", ConstInt 2)])
                    Samples.in_body) _ eq_refl).
Defined.

(** X9: after [target = call] has lowered, [target.port] resolves to the
    port of that name on the node of the call, for any port name, and the
    bare [target] resolves to the outputs of the callee in signature order
    unless [target] is also an input of the body; an earlier binding of
    [target] is replaced. *)
Theorem call_assign_then_use (target : string) (call : Node_inputs)
    (self self1 : TkslTopVisitor) :
  visitCallMap target call self = Ok (tt, self1) ->
  exists n fd self0,
    visitNode_inputs call self = Ok ((n, fd), self0) /\
    self_graph self1 = self_graph self0 /\
    self_context self1 = bind_target (self_context self) target (n, fd) /\
    (forall port,
       visitOutport (OutThunkable (ThunkPortLabel (mkPort_label target port))) self1
       = Ok ([mkNodePort n port], self1)) /\
    (target ∉ OrderedDict.keys (inputs (self_context self)) ->
     visitOutport (OutThunkable (ThunkID target)) self1
     = Ok (map (mkNodePort n) (fd_outputs fd), self1)).
Proof.
  unfold visitCallMap. intros H.
  apply bind_Ok in H as ([n fd] & self0 & Hcall & H).
  rewrite set_output_var_run in H. injection H as <-.
  destruct (frame_visitNode_inputs _ _ _ _ Hcall) as (_ & Hctx & _).
  exists n, fd, self0. split; [done|]. split; [done|].
  split; [simpl; by rewrite Hctx|]. split.
  - intros port. simpl. unfold visitPort_label, bind, get_context. simpl.
    by rewrite lookup_insert_eq.
  - intros Hin. simpl. unfold bind, get_context. simpl.
    rewrite Hctx, (not_contains _ _ Hin), lookup_insert_eq. done.
Qed.

Lemma call_assign_then_use_witness :
  exists self1,
    visitCallMap "s" (Samples.call "divmod" (ArgPositional [Samples.id_ "a"; Samples.id_ "k"]))
                 Samples.in_body = Ok (tt, self1) /\
    visitOutport (Samples.id_ "s") self1
    = Ok ([mkNodePort (NodeIdx 3) "q"; mkNodePort (NodeIdx 3) "r"], self1).
Proof.
  destruct (visitCallMap "s"
              (Samples.call "divmod" (ArgPositional [Samples.id_ "a"; Samples.id_ "k"]))
              Samples.in_body) as [[[] self1]|e] eqn:Hrun; [|by vm_compute in Hrun].
  destruct (call_assign_then_use _ _ _ _ Hrun) as (n & fd & self0 & Hcall & _ & _ & _ & Huse).
  exists self1. split; [reflexivity|].
  pose proof (Huse (bool_decide_eq_false_1 ("s" ∈ ["a"]) eq_refl)) as Huse'.
  vm_compute in Hcall. injection Hcall as <- <- _. exact Huse'.
Defined.

(** X10: an edge declaration looks up the variable of its source and then
    the variable of its target in [output_vars] and raises [KeyError] for
    the first that is unbound.  When it lowers, it adds the single edge
    between the two named ports, whatever the port names, and leaves the
    nodes and the context as they were. *)
Theorem edge_declaration (source target : Port_label) (self : TkslTopVisitor) :
  (output_vars (self_context self) !! pl_var source = None ->
   visitEdge source target self = Raise (KeyError (pl_var source))) /\
  (is_Some (output_vars (self_context self) !! pl_var source) ->
   output_vars (self_context self) !! pl_var target = None ->
   visitEdge source target self = Raise (KeyError (pl_var target))) /\
  (forall e self1,
     visitEdge source target self = Ok (e, self1) ->
     exists n1 fd1 n2 fd2,
       output_vars (self_context self) !! pl_var source = Some (n1, fd1) /\
       output_vars (self_context self) !! pl_var target = Some (n2, fd2) /\
       e = mkEdge (mkNodePort n1 (pl_port source)) (mkNodePort n2 (pl_port target)) /\
       graph_edges (self_graph self1) = graph_edges (self_graph self) ++ [e] /\
       graph_nodes (self_graph self1) = graph_nodes (self_graph self) /\
       self_context self1 = self_context self).
Proof.
  unfold visitEdge, visitPort_label. split; [|split].
  - intros Hsrc. unfold bind, get_context. simpl. by rewrite Hsrc.
  - intros [[n fd] Hsrc] Htgt. unfold bind, get_context. simpl.
    rewrite Hsrc. simpl. by rewrite Htgt.
  - intros e self1 H. unfold bind, get_context, get_graph in H. simpl in H.
    destruct (output_vars (self_context self) !! pl_var source) as [[n1 fd1]|]; [|done].
    simpl in H.
    destruct (output_vars (self_context self) !! pl_var target) as [[n2 fd2]|]; [|done].
    simpl in H. unfold graph_add_edge, bind, get_graph, lift, put_graph, ret in H.
    destruct (add_edge (self_graph self) _ _) as [g'|err] eqn:Hadd; [|done].
    simpl in H. injection H as <- <-.
    apply add_edge_Ok in Hadd as [Hn He].
    exists n1, fd1, n2, fd2. by repeat split.
Qed.

Lemma edge_declaration_witness :
  visitEdge (mkPort_label "nobody" "c") (mkPort_label "d" "a") Samples.in_body
  = Raise (KeyError "nobody") /\
  visitEdge (mkPort_label "s" "c") (mkPort_label "nobody" "a") Samples.in_body
  = Raise (KeyError "nobody") /\
  exists self1,
    visitEdge (mkPort_label "s" "c") (mkPort_label "d" "a") Samples.in_body
    = Ok (mkEdge (mkNodePort (NodeIdx 0) "c") (mkNodePort (NodeIdx 2) "a"), self1) /\
    length (graph_edges (self_graph self1)) = 2%nat.
Proof.
  split; [|split].
  - exact (proj1 (edge_declaration (mkPort_label "nobody" "c") (mkPort_label "d" "a")
                    Samples.in_body) eq_refl).
  - refine (proj1 (proj2 (edge_declaration (mkPort_label "s" "c")
                            (mkPort_label "nobody" "a") Samples.in_body)) _ eq_refl).
    by eexists.
  - destruct (visitEdge (mkPort_label "s" "c") (mkPort_label "d" "a") Samples.in_body)
      as [[e self1]|err] eqn:Hrun; [|by vm_compute in Hrun].
    destruct (proj2 (proj2 (edge_declaration _ _ _)) _ _ Hrun)
      as (n1 & fd1 & n2 & fd2 & H1 & H2 & -> & He & _).
    exists self1. vm_compute in H1. injection H1 as <- _.
    vm_compute in H2. injection H2 as <- _.
    split; [reflexivity|]. by rewrite He.
Defined.

(** X11: the blocks of an [if] or of a [loop] are lowered in a scope of
    their own.  In the visitor that starts such a block a bare name
    resolves to a boundary input when it is one of the inputs given to the
    construct, otherwise to a constant node for the function of that name,
    and is not in scope otherwise; [name.port] always raises [KeyError].
    The call results, constants and inputs of the enclosing body are not
    visible. *)
Theorem nested_block_scope (sg : RuntimeSignature) (enclosing : Context)
    (inps : list (string * NodePort)) (name : string) :
  let sub := new_visitor sg (nested_context enclosing inps) in
  (name ∈ OrderedDict.keys inps ->
   visitOutport (OutThunkable (ThunkID name)) sub = Ok ([mkNodePort InputRef name], sub)) /\
  (name ∉ OrderedDict.keys inps ->
   forall g fd, functions enclosing !! name = Some (g, fd) ->
   visitOutport (OutThunkable (ThunkID name)) sub
   = Ok ([mkNodePort (NodeIdx 0) "value"],
         mkVisitor sg (nested_context enclosing inps) (mkGraph [ConstNode (VGraph g)] []))) /\
  (name ∉ OrderedDict.keys inps -> functions enclosing !! name = None ->
   visitOutport (OutThunkable (ThunkID name)) sub
   = Raise (RuntimeError ("Name not found in scope: " +:+ name +:+ "."))) /\
  (forall port,
     visitOutport (OutThunkable (ThunkPortLabel (mkPort_label name port))) sub
     = Raise (KeyError name)).
Proof.
  intros sub. subst sub.
  remember (nested_context enclosing inps) as c eqn:Hc.
  assert (Hkeys : OrderedDict.keys (inputs c) = OrderedDict.keys inps)
    by (subst c; apply nested_context_inputs).
  assert (Hfuns : functions c = functions enclosing) by (by subst c).
  assert (Hvars : output_vars c = ∅) by (by subst c).
  assert (Hconsts : constants c = ∅) by (by subst c).
  clear Hc. simpl. unfold bind, get_context, new_visitor, copy. simpl.
  rewrite Hvars, Hconsts, Hfuns.
  split; [|split; [|split]].
  - intros Hin. rewrite <- Hkeys in Hin. apply contains_keys in Hin. by rewrite Hin.
  - intros Hout g fd Hfun. rewrite <- Hkeys in Hout. rewrite (not_contains _ _ Hout).
    rewrite lookup_empty. by rewrite Hfun.
  - intros Hout Hfun. rewrite <- Hkeys in Hout. rewrite (not_contains _ _ Hout).
    rewrite !lookup_empty. by rewrite Hfun.
  - intros port. unfold visitPort_label, bind, get_context. simpl.
    by rewrite Hvars, lookup_empty.
Qed.

Lemma nested_block_scope_witness :
  visitOutport (Samples.id_ "s")
    (new_visitor Samples.catalog
       (nested_context (self_context Samples.in_body) [("x", mkNodePort (NodeIdx 2) "q")]))
  = Raise (RuntimeError "Name not found in scope: s.") /\
  visitOutport (Samples.id_ "x")
    (new_visitor Samples.catalog
       (nested_context (self_context Samples.in_body) [("x", mkNodePort (NodeIdx 2) "q")]))
  = Ok ([mkNodePort InputRef "x"],
        new_visitor Samples.catalog
          (nested_context (self_context Samples.in_body)
             [("x", mkNodePort (NodeIdx 2) "q")])).
Proof.
  pose proof (nested_block_scope Samples.catalog (self_context Samples.in_body)
                [("x", mkNodePort (NodeIdx 2) "q")]) as H.
  split.
  - apply (proj1 (proj2 (proj2 (H "s")))); [|reflexivity].
    by apply (bool_decide_eq_false_1 ("s" ∈ ["x"])).
  - apply (proj1 (H "x")). simpl. left.
Defined.

(** ** Instructions and blocks *)

Lemma grows_refl self : grows self self.
Proof. unfold grows. repeat split; auto using extends_refl. Qed.

Lemma grows_trans self1 self2 self3 : grows self1 self2 -> grows self2 self3 -> grows self1 self3.
Proof.
  intros (S1 & F1 & I1 & O1 & A1 & V1 & C1 & E1) (S2 & F2 & I2 & O2 & A2 & V2 & C2 & E2).
  unfold grows. repeat split; try congruence; eauto using extends_trans.
Qed.

Lemma is_Some_insert {V} (m : gmap string V) k v x :
  is_Some (m !! x) -> is_Some (<[k := v]> m !! x).
Proof.
  intros Hx. destruct (decide (k = x)) as [->|Hne].
  - rewrite lookup_insert_eq. eauto.
  - by rewrite lookup_insert_ne.
Qed.

(** A run that keeps signature and context but for one binding of a call
    result, and extends the graph. *)
Lemma grows_bind_target self self1 target r :
  self_sig self1 = self_sig self ->
  self_context self1 = bind_target (self_context self) target r ->
  extends (self_graph self) (self_graph self1) ->
  grows self self1.
Proof.
  intros Hs Hc He. unfold grows. rewrite Hc. simpl.
  repeat split; try done. intros x. apply is_Some_insert.
Qed.

Lemma visit_grows (i : Inst) self self1 : visit i self = Ok (tt, self1) -> grows self self1.
Proof.
  destruct i as [name c|target call|target condition inps b1 b2|target inps body cond
                 |args|source tgt]; simpl.
  - unfold visitConstDecl. intros H.
    apply bind_Ok in H as (v & s & Hv & H). apply lift_Ok in Hv as [Hv ->].
    injection H as <-. unfold grows. simpl. repeat split; try done.
    + intros x. apply is_Some_insert.
    + by exists [ConstNode v], []; rewrite app_nil_r.
  - unfold visitCallMap. intros H.
    apply bind_Ok in H as ([n fd] & self0 & Hcall & H).
    rewrite set_output_var_run in H. injection H as <-.
    destruct (frame_visitNode_inputs _ _ _ _ Hcall) as (Hs & Hc & He).
    eapply grows_bind_target; simpl; [done| |done]. by rewrite Hc.
  - intros H. fold (visitIfBlock target condition inps b1 b2) in H.
    apply visitIfBlock_Ok in H
      as (c0 & ports & s1 & inputs & s2 & if_g & else_g & fin1 & fin2
          & Hcond & Hin & _ & _ & Hs & Hc & Hn & He & _).
    destruct (frame_visitOutport _ _ _ _ Hcond) as (Hs1 & Hc1 & He1).
    destruct (frame_named_inputs _ _ _ _ Hin) as (Hs2 & Hc2 & He2).
    eapply grows_bind_target; [congruence | rewrite Hc, Hc2, Hc1; reflexivity |].
    eapply extends_trans; [exact He1|]. eapply extends_trans; [exact He2|].
    eexists _, _. eauto.
  - intros H. fold (visitLoop target inps body cond) in H.
    apply visitLoop_Ok in H
      as (inputs & s2 & body_g & cond_g & fin1 & fin2 & Hin & _ & _ & Hs & Hc & Hn & He & _).
    destruct (frame_named_inputs _ _ _ _ Hin) as (Hs2 & Hc2 & He2).
    eapply grows_bind_target; [congruence | rewrite Hc, Hc2; reflexivity |].
    eapply extends_trans; [exact He2|]. eexists _, _. eauto.
  - unfold visitOutputCall. destruct args as [argctx|]; [|done]. intros H.
    apply bind_Ok in H as (c & s & Hc & H). injection Hc as <- <-.
    apply bind_Ok in H as (kwargs & s0 & Hargs & H).
    destruct (frame_visitArglist _ _ _ _ _ Hargs) as (Hs & Hc & He).
    unfold graph_set_outputs in H.
    apply bind_Ok in H as (g & s & Hg & H). injection Hg as <- <-.
    apply bind_Ok in H as (g' & s & Hset & H). apply lift_Ok in Hset as [Hset ->].
    injection H as <-. apply set_outputs_Ok in Hset as [Hn' He'].
    unfold grows. simpl. rewrite Hc. repeat split; try done.
    eapply extends_trans; [exact He|]. eexists [], _. by rewrite app_nil_r.
  - intros H. apply bind_Ok in H as (e & s & Hedge & [= <-]).
    unfold visitEdge in Hedge.
    apply bind_Ok in Hedge as (src & s1 & Hsrc & Hedge).
    apply bind_Ok in Hedge as (tg & s2 & Htgt & Hedge).
    destruct (frame_visitPort_label _ _ _ _ Hsrc) as (Hs1 & Hc1 & He1).
    destruct (frame_visitPort_label _ _ _ _ Htgt) as (Hs2 & Hc2 & He2).
    unfold graph_add_edge in Hedge.
    apply bind_Ok in Hedge as (g & s' & Hg & Hedge). injection Hg as <- <-.
    apply bind_Ok in Hedge as (g' & s' & Hadd & Hedge). apply lift_Ok in Hadd as [Hadd ->].
    injection Hedge as _ <-. apply add_edge_Ok in Hadd as [Hn' He'].
    unfold grows. simpl. rewrite Hc2, Hc1, Hs2, Hs1. repeat split; try done.
    eapply extends_trans; [exact He1|]. eapply extends_trans; [exact He2|].
    eexists [], _. by rewrite app_nil_r.
Qed.

Lemma mapM_visit_grows block self r self1 :
  mapM visit block self = Ok (r, self1) -> grows self self1.
Proof.
  revert self r. induction block as [|i block IH]; intros self r; simpl.
  - intros [= _ <-]. apply grows_refl.
  - intros H. apply bind_Ok in H as ([] & s1 & Hi & H).
    apply bind_Ok in H as (rs & s2 & Hrest & [= _ <-]).
    eapply grows_trans; [eapply visit_grows; exact Hi | eapply IH; exact Hrest].
Qed.

(** X12: lowering a block of instructions returns the graph of the
    visitor and, whatever the instructions are, keeps the signature, the
    functions, inputs, outputs and aliases of the context, never unbinds a
    call result or a constant, and never removes or reorders a node or an
    edge: the graph before is a prefix of the graph after, so node
    references stay valid. *)
Theorem block_invariants (block : Code_block) (self self1 : TkslTopVisitor)
    (g : TierkreisGraph) :
  visitCode_block block self = Ok (g, self1) ->
  g = self_graph self1 /\ grows self self1.
Proof.
  unfold visitCode_block, visitCode_block_over. intros H.
  apply bind_Ok in H as (r & s & Hrun & [= <- <-]).
  split; [done|]. by eapply mapM_visit_grows.
Qed.

Lemma block_invariants_witness :
  exists g self1,
    visitCode_block
      [ConstDecl "one" (ConstInt 1);
       CallMap "s" (Samples.call "iadd" (ArgPositional [Samples.id_ "a"; Samples.id_ "one"]));
       Loop "r" Samples.loop_inputs Samples.loop_body Samples.loop_condition;
       OutputCall (Some (ArgPositional [Samples.id_ "s"]))]
      Samples.in_body = Ok (g, self1) /\
    g = self_graph self1 /\ grows Samples.in_body self1.
Proof.
  destruct (visitCode_block
      [ConstDecl "one" (ConstInt 1);
       CallMap "s" (Samples.call "iadd" (ArgPositional [Samples.id_ "a"; Samples.id_ "one"]));
       Loop "r" Samples.loop_inputs Samples.loop_body Samples.loop_condition;
       OutputCall (Some (ArgPositional [Samples.id_ "s"]))]
      Samples.in_body) as [[g self1]|e] eqn:Hrun; [|by vm_compute in Hrun].
  exists g, self1. split; [reflexivity|]. exact (block_invariants _ _ _ _ Hrun).
Defined.

(** X13: a block is lowered instruction by instruction.  When an
    instruction fails the block fails with its exception, whatever comes
    after it; when a front part of the block lowers, the whole block
    behaves as the rest does in the visitor the front part left. *)
Theorem block_sequencing (b1 b2 : Code_block) (self : TkslTopVisitor) :
  (forall e, mapM visit b1 self = Raise e -> visitCode_block (b1 ++ b2) self = Raise e) /\
  (forall r self1,
     mapM visit b1 self = Ok (r, self1) ->
     visitCode_block (b1 ++ b2) self = visitCode_block b2 self1).
Proof.
  unfold visitCode_block, visitCode_block_over, bind. rewrite mapM_app. split.
  - by intros e ->.
  - intros r self1 ->. by destruct (mapM visit b2 self1) as [[b s2]|e].
Qed.

Lemma block_sequencing_witness :
  visitCode_block
    ([ConstDecl "one" (ConstInt 1); CallMap "q" (Samples.call "frobnicate" ArgNeither)]
     ++ [OutputCall (Some (ArgPositional [Samples.id_ "one"]))]) Samples.in_body
  = Raise (RuntimeError "Function name not found: frobnicate").
Proof.
  exact (proj1 (block_sequencing
                  [ConstDecl "one" (ConstInt 1);
                   CallMap "q" (Samples.call "frobnicate" ArgNeither)]
                  [OutputCall (Some (ArgPositional [Samples.id_ "one"]))] Samples.in_body)
           _ eq_refl).
Defined.

(** ** Declarations and programs *)

Lemma visitFuncDef_Ok name gt block self self1 :
  visitFuncDef name gt block self = Ok (tt, self1) ->
  exists fd g,
    visitGraph_type (aliases (self_context self)) gt = Ok fd /\
    lowered_in (self_sig self) (funcdef_context (self_context self) fd) block g /\
    self_sig self1 = self_sig self /\ self_graph self1 = self_graph self /\
    self_context self1
    = mkContext (<[name := (g, fd)]> (functions (self_context self)))
                (output_vars (self_context self)) (constants (self_context self))
                (inputs (self_context self)) (outputs (self_context self))
                (aliases (self_context self)).
Proof.
  unfold visitFuncDef. intros H.
  apply bind_Ok in H as (c & s & Hc & H). injection Hc as <- <-.
  apply bind_Ok in H as (fd & s & Hdef & H). apply lift_Ok in Hdef as [Hdef ->].
  apply bind_Ok in H as (g & s & Hsub & H).
  apply sub_visit_Ok in Hsub as (-> & fin & Hsub). injection H as <-.
  exists fd, g. split; [done|]. split; [by exists fin|]. done.
Qed.

Lemma visitTypeAlias_Ok id ty self self1 :
  visitTypeAlias id ty self = Ok (tt, self1) ->
  exists t,
    visitType_ (aliases (self_context self)) ty = Ok t /\
    self_sig self1 = self_sig self /\ self_graph self1 = self_graph self /\
    self_context self1
    = mkContext (functions (self_context self)) (output_vars (self_context self))
                (constants (self_context self)) (inputs (self_context self))
                (outputs (self_context self)) (<[id := t]> (aliases (self_context self))).
Proof.
  unfold visitTypeAlias. intros H.
  apply bind_Ok in H as (c & s & Hc & H). injection Hc as <- <-.
  apply bind_Ok in H as (t & s & Ht & H). apply lift_Ok in Ht as [Ht ->].
  injection H as <-. by exists t.
Qed.

(** What a run of declarations leaves: the functions table holds what it
    held and the functions defined; nothing else but the aliases changes. *)
Lemma declarations_Ok decs self r self1 :
  mapM visit_declaration decs self = Ok (r, self1) ->
  self_sig self1 = self_sig self /\ self_graph self1 = self_graph self /\
  output_vars (self_context self1) = output_vars (self_context self) /\
  constants (self_context self1) = constants (self_context self) /\
  forall x, is_Some (functions (self_context self1) !! x)
            <-> is_Some (functions (self_context self) !! x) \/ x ∈ funcdef_names decs.
Proof.
  revert self r. induction decs as [|d decs IH]; intros self r; simpl.
  - intros [= _ <-]. repeat split; try done; [by left|].
    intros [?|?%elem_of_nil]; done.
  - intros H. apply bind_Ok in H as ([] & s1 & Hd & H).
    apply bind_Ok in H as (rs & s2 & Hrest & [= _ <-]).
    apply IH in Hrest as (Hs & Hg & Hv & Hc & Hf).
    destruct d as [id ty|id gt block]; simpl in Hd.
    + apply visitTypeAlias_Ok in Hd as (t & _ & Hs1 & Hg1 & Hc1).
      rewrite Hc1 in Hv, Hc, Hf. simpl in *.
      repeat split; try congruence; apply Hf.
    + apply visitFuncDef_Ok in Hd as (fd & g & _ & _ & Hs1 & Hg1 & Hc1).
      rewrite Hc1 in Hv, Hc, Hf. simpl in *.
      repeat split; try congruence.
      * intros Hx. apply Hf in Hx as [Hx|Hx]; [|right; by right].
        destruct (decide (id = x)) as [->|Hne]; [right; left|].
        left. by rewrite lookup_insert_ne in Hx.
      * intros [Hx|Hx]; apply Hf.
        -- left. by apply is_Some_insert.
        -- apply elem_of_cons in Hx as [->|Hx]; [|by right].
           left. rewrite lookup_insert_eq. eauto.
Qed.

Lemma initial_functions sg (x : string) :
  functions (self_context (new_visitor sg empty_context)) !! x = None.
Proof. apply lookup_empty. Qed.

(** X14: a program compiles to a graph only if one of its declarations
    defines a function named [main]; when all declarations lower and none
    defines [main], the compilation raises [KeyError] for [main]. *)
Theorem program_needs_main (sg : RuntimeSignature) (decs : list Declaration) :
  (forall g, compile sg decs = Ok g -> "main" ∈ funcdef_names decs) /\
  (forall r self1,
     mapM visit_declaration decs (new_visitor sg empty_context) = Ok (r, self1) ->
     "main" ∉ funcdef_names decs ->
     compile sg decs = Raise (KeyError "main")).
Proof.
  unfold compile, visitStart. split.
  - intros g H.
    destruct (bind _ _ _) as [[g' s]|e] eqn:Hrun; [|done].
    apply bind_Ok in Hrun as (r & self1 & Hdecs & Hrun).
    apply bind_Ok in Hrun as (c & s' & Hc & Hrun). injection Hc as <- <-.
    apply bind_Ok in Hrun as (main & s' & Hmain & _). apply lift_Ok in Hmain as [Hmain _].
    apply declarations_Ok in Hdecs as (_ & _ & _ & _ & Hf).
    destruct (functions (self_context self1) !! "main") as [m|] eqn:Em; [|done].
    destruct (proj1 (Hf "main")) as [[? Habs]|?]; [by rewrite Em; eauto| |done].
    by rewrite initial_functions in Habs.
  - intros r self1 Hdecs Hno. unfold bind at 1. rewrite Hdecs.
    apply declarations_Ok in Hdecs as (_ & _ & _ & _ & Hf).
    unfold bind, get_context, lift. simpl.
    destruct (functions (self_context self1) !! "main") as [m|] eqn:Em; [|done].
    destruct (proj1 (Hf "main")) as [[? Habs]|?]; [by rewrite Em; eauto| |done].
    by rewrite initial_functions in Habs.
Qed.

Lemma program_needs_main_witness :
  compile Samples.catalog
    [TypeAlias "T" TypeInt;
     FuncDef "helper" (mkGraph_type [("a", TypeID "T")] [("r", TypeID "T")])
       [OutputCall (Some (ArgNamed [("r", Samples.id_ "a")]))]]
  = Raise (KeyError "main").
Proof.
  destruct (mapM visit_declaration
              [TypeAlias "T" TypeInt;
               FuncDef "helper" (mkGraph_type [("a", TypeID "T")] [("r", TypeID "T")])
                 [OutputCall (Some (ArgNamed [("r", Samples.id_ "a")]))]]
              (new_visitor Samples.catalog empty_context)) as [[r self1]|e] eqn:Hrun;
    [|by vm_compute in Hrun].
  refine (proj2 (program_needs_main _ _) r self1 Hrun _).
  by apply (bool_decide_eq_false_1 ("main" ∈ ["helper"])).
Defined.

Lemma funcdef_unknown_callee name gt fd target f args rest self :
  ~ in_catalog (self_sig self) f ->
  functions (self_context self) !! fn_func_name f = None ->
  visitGraph_type (aliases (self_context self)) gt = Ok fd ->
  visitFuncDef name gt (CallMap target (FuncCall f args) :: rest) self
  = Raise (RuntimeError ("Function name not found: " +:+ fn_func_name f)).
Proof.
  intros Hcat Hloc Hgt. unfold visitFuncDef.
  erewrite bind_step by reflexivity. rewrite Hgt.
  erewrite (bind_step (lift (Ok fd))) by reflexivity.
  apply bind_Raise. unfold sub_visit. erewrite bind_step by reflexivity.
  unfold visitCode_block_over. simpl.
  rewrite (bind_Raise _ _ _ (RuntimeError ("Function name not found: " +:+ fn_func_name f)));
    [done|].
  apply bind_Raise. unfold visitCallMap. apply bind_Raise. simpl.
  apply bind_Raise, visitF_name_unknown; [done|].
  simpl. unfold copy. by rewrite funcdef_context_functions.
Qed.

(** X15: a function can only be called from a body that is lowered after
    its definition.  If the declarations before a function definition
    lower and neither they nor the catalog provide the callee, a call at
    the start of the body fails with the function-not-found error, also
    when the callee is the function being defined or is defined further
    down in the program. *)
Theorem functions_defined_before_use (sg : RuntimeSignature) (pre post : list Declaration)
    (name target : string) (gt : Graph_type) (fd : FunctionDefinition) (f : F_name)
    (args : option Arglist) (rest : Code_block) (r : list unit) (self1 : TkslTopVisitor) :
  mapM visit_declaration pre (new_visitor sg empty_context) = Ok (r, self1) ->
  visitGraph_type (aliases (self_context self1)) gt = Ok fd ->
  ~ in_catalog sg f ->
  fn_func_name f ∉ funcdef_names pre ->
  compile sg (pre ++ FuncDef name gt (CallMap target (FuncCall f args) :: rest) :: post)
  = Raise (RuntimeError ("Function name not found: " +:+ fn_func_name f)).
Proof.
  intros Hpre Hgt Hcat Hnew. unfold compile, visitStart, bind at 1.
  rewrite mapM_app, Hpre. simpl. unfold bind at 1.
  pose proof (declarations_Ok _ _ _ _ Hpre) as (Hs & _ & _ & _ & Hf).
  rewrite (funcdef_unknown_callee name gt fd); [done| |  |done].
  - by rewrite Hs.
  - destruct (functions (self_context self1) !! fn_func_name f) as [m|] eqn:Em; [|done].
    destruct (proj1 (Hf (fn_func_name f))) as [[? Habs]|?]; [by rewrite Em; eauto| |done].
    by rewrite initial_functions in Habs.
Qed.

Lemma functions_defined_before_use_witness :
  compile Samples.catalog
    ([FuncDef "one" (mkGraph_type [] [("r", TypeInt)])
        [OutputCall (Some (ArgNamed [("r", OutConst (ConstInt 1))]))]]
     ++ FuncDef "main" (mkGraph_type [] [])
          [CallMap "x" (Samples.call "main" (ArgNamed []))]
        :: [])
  = Raise (RuntimeError "Function name not found: main").
Proof.
  destruct (mapM visit_declaration
              [FuncDef "one" (mkGraph_type [] [("r", TypeInt)])
                 [OutputCall (Some (ArgNamed [("r", OutConst (ConstInt 1))]))]]
              (new_visitor Samples.catalog empty_context)) as [[r self1]|e] eqn:Hrun;
    [|by vm_compute in Hrun].
  refine (functions_defined_before_use Samples.catalog _ [] "main" "x" (mkGraph_type [] [])
            (mkFunctionDefinition [] [] (Some (mkGraphType [] [])))
            (mkF_name None "main") (Some (ArgNamed [])) [] r self1 Hrun eq_refl _ _).
  - intros (ns & tk & Hns & Htk). simpl in Hns.
    assert (ns !! "main" = None) as Hnone; [|simpl in Htk; congruence].
    injection Hns as <-. reflexivity.
  - by apply (bool_decide_eq_false_1 ("main" ∈ ["one"])).
Defined.

(** ** Types and constants *)

Lemma map_result_impl {A B} (f f' : A -> Result B) (l : list A) r :
  Forall (fun a => forall b, f a = Ok b -> f' a = Ok b) l ->
  map_result f l = Ok r -> map_result f' l = Ok r.
Proof.
  intros Hall. revert r. induction Hall as [|a l Ha _ IH]; intros r; simpl; [done|].
  intros (b & Hb & (bs & Hbs & [= <-])%rbind_Ok)%rbind_Ok.
  by rewrite (Ha _ Hb), (IH _ Hbs).
Qed.

Lemma visitF_param_impl al al' (l : list (string * Type_)) :
  Forall (fun p => forall t, visitType_ al p.2 = Ok t -> visitType_ al' p.2 = Ok t) l ->
  Forall (fun p => forall b, visitF_param al p = Ok b -> visitF_param al' p = Ok b) l.
Proof.
  intros Hall. eapply Forall_impl; [exact Hall|]. intros [label ty] H b. simpl in *.
  intros (t & Ht & [= <-])%rbind_Ok. by rewrite (H _ Ht).
Qed.

Lemma visitType_struct_unfold al fields :
  visitType_ al (TypeStruct fields)
  = rbind (map_result (visitF_param al) fields)
          (fun items => Ok (StructType (OrderedDict.of_items items))).
Proof. reflexivity. Qed.

Lemma visitType_graph_unfold al g :
  visitType_ al (TypeGraph g)
  = rbind (visitGraph_type al g) (fun fdef =>
      match fd_graph_type fdef with
      | Some g_type => Ok (type_of_graph_type g_type)
      | None => Raise AssertionError
      end).
Proof. reflexivity. Qed.

Lemma visitType_weaken al al' :
  al ⊆ al' ->
  (forall ty t, visitType_ al ty = Ok t -> visitType_ al' ty = Ok t) /\
  (forall g fd, visitGraph_type al g = Ok fd -> visitGraph_type al' g = Ok fd).
Proof.
  intros Hsub.
  assert (HP : forall ty, (fun ty => forall t, visitType_ al ty = Ok t ->
                                     visitType_ al' ty = Ok t) ty).
  { apply (Type_mut
             (fun ty => forall t, visitType_ al ty = Ok t -> visitType_ al' ty = Ok t)
             (fun g => forall fd, visitGraph_type al g = Ok fd ->
                                  visitGraph_type al' g = Ok fd)).
    - by intros t.
    - by intros t.
    - by intros t.
    - by intros t.
    - intros a b IHa IHb t. simpl.
      intros (ta & Ha & (tb & Hb & [= <-])%rbind_Ok)%rbind_Ok.
      by rewrite (IHa _ Ha), (IHb _ Hb).
    - intros k v IHk IHv t. simpl.
      intros (tk & Hk & (tv & Hv & [= <-])%rbind_Ok)%rbind_Ok.
      by rewrite (IHk _ Hk), (IHv _ Hv).
    - intros e IHe t. simpl. intros (te & He & [= <-])%rbind_Ok. by rewrite (IHe _ He).
    - intros fields Hall t. rewrite !visitType_struct_unfold.
      intros (items & Hitems & [= <-])%rbind_Ok.
      by rewrite (map_result_impl _ _ _ _ (visitF_param_impl _ _ _ Hall) Hitems).
    - intros g IHg t. rewrite !visitType_graph_unfold.
      intros (fd & Hfd & Ht)%rbind_Ok. by rewrite (IHg _ Hfd).
    - intros id t. simpl. unfold subscript.
      destruct (al !! id) as [t'|] eqn:E; [|done]. intros [= <-].
      by rewrite (lookup_weaken _ _ _ _ E Hsub).
    - by intros t.
    - intros par_in par_out Hin Hout fd. rewrite !visitGraph_type_unfold.
      unfold visitF_param_list.
      intros (ins & (i1 & Hi1 & [= <-])%rbind_Ok
              & (outs & (i2 & Hi2 & [= <-])%rbind_Ok & [= <-])%rbind_Ok)%rbind_Ok.
      rewrite (map_result_impl _ _ _ _ (visitF_param_impl _ _ _ Hin) Hi1). simpl.
      by rewrite (map_result_impl _ _ _ _ (visitF_param_impl _ _ _ Hout) Hi2). }
  split; [exact HP|].
  intros [par_in par_out] fd. rewrite !visitGraph_type_unfold. unfold visitF_param_list.
  intros (ins & (i1 & Hi1 & [= <-])%rbind_Ok
          & (outs & (i2 & Hi2 & [= <-])%rbind_Ok & [= <-])%rbind_Ok)%rbind_Ok.
  assert (Hany : forall l : list (string * Type_),
            Forall (fun p => forall t, visitType_ al p.2 = Ok t ->
                                       visitType_ al' p.2 = Ok t) l).
  { intros l. apply Forall_forall. intros p _. apply HP. }
  rewrite (map_result_impl _ _ _ _ (visitF_param_impl _ _ _ (Hany par_in)) Hi1). simpl.
  by rewrite (map_result_impl _ _ _ _ (visitF_param_impl _ _ _ (Hany par_out)) Hi2).
Qed.

(** X16: a type expression or a signature that resolves under an alias
    table resolves to the same type under every table that extends it:
    declaring further aliases never changes nor breaks what was
    resolvable. *)
Theorem type_resolution_stable (al al' : gmap string TierkreisType) :
  al ⊆ al' ->
  (forall ty t, visitType_ al ty = Ok t -> visitType_ al' ty = Ok t) /\
  (forall g fd, visitGraph_type al g = Ok fd -> visitGraph_type al' g = Ok fd).
Proof. apply visitType_weaken. Qed.

Lemma type_resolution_stable_witness :
  visitType_ {[ "T" := IntType; "U" := BoolType ]}
             (TypePair (TypeID "T") (TypeStruct [("x", TypeVec (TypeID "T"))]))
  = Ok (PairType IntType (StructType [("x", VecType IntType)])).
Proof.
  refine (proj1 (type_resolution_stable {[ "T" := IntType ]}
                   {[ "T" := IntType; "U" := BoolType ]} _)
            (TypePair (TypeID "T") (TypeStruct [("x", TypeVec (TypeID "T"))]))
            (PairType IntType (StructType [("x", VecType IntType)])) eq_refl).
  apply insert_mono, map_empty_subseteq.
Defined.

Lemma find_append {A} (f : A -> bool) (l1 l2 : list A) :
  List.find f (l1 ++ l2)
  = match List.find f l1 with
    | Some x => Some x
    | None => List.find f l2
    end.
Proof. induction l1 as [|a l1 IH]; simpl; [done|]. by destruct (f a). Qed.

Lemma type_ids_struct fields : type_ids (TypeStruct fields) = flat_map param_ids fields.
Proof.
  simpl. induction fields as [|[label ty] fields IH]; simpl; [done|]. by rewrite IH.
Qed.

Lemma graph_type_ids_unfold par_in par_out :
  graph_type_ids (mkGraph_type par_in par_out)
  = flat_map param_ids par_in ++ flat_map param_ids par_out.
Proof.
  simpl. f_equal.
  - induction par_in as [|[label ty] l IH]; simpl; [done|]. by rewrite IH.
  - induction par_out as [|[label ty] l IH]; simpl; [done|]. by rewrite IH.
Qed.

Lemma params_resolve_or_raise al (l : list (string * Type_)) :
  Forall (fun p => resolves_or_raises (visitType_ al p.2)
                     (List.find (undeclared al) (type_ids p.2))) l ->
  resolves_or_raises (map_result (visitF_param al) l)
    (List.find (undeclared al) (flat_map param_ids l)).
Proof.
  induction 1 as [|[label ty] l Hp _ IH]; simpl.
  - by exists [].
  - unfold param_ids at 1. simpl in *. rewrite find_append.
    destruct (List.find (undeclared al) (type_ids ty)) as [id|]; simpl in *.
    + by rewrite Hp.
    + destruct Hp as [t ->]. simpl.
      destruct (List.find (undeclared al) (flat_map param_ids l)) as [id|]; simpl in *.
      * by rewrite IH.
      * destruct IH as [items ->]. simpl. by eexists.
Qed.

Lemma visitType_resolves_or_raises al :
  (forall ty, resolves_or_raises (visitType_ al ty) (first_undeclared al ty)) /\
  (forall g, resolves_or_raises (visitGraph_type al g)
               (List.find (undeclared al) (graph_type_ids g))).
Proof.
  assert (HP : forall ty, resolves_or_raises (visitType_ al ty)
                            (List.find (undeclared al) (type_ids ty))).
  { apply (Type_mut
             (fun ty => resolves_or_raises (visitType_ al ty)
                          (List.find (undeclared al) (type_ids ty)))
             (fun g => resolves_or_raises (visitGraph_type al g)
                         (List.find (undeclared al) (graph_type_ids g)))).
    - by eexists.
    - by eexists.
    - by eexists.
    - by eexists.
    - intros a b IHa IHb. simpl. rewrite find_append.
      destruct (List.find (undeclared al) (type_ids a)) as [id|]; simpl in *.
      + by rewrite IHa.
      + destruct IHa as [ta ->]. simpl.
        destruct (List.find (undeclared al) (type_ids b)) as [id|]; simpl in *.
        * by rewrite IHb.
        * destruct IHb as [tb ->]. simpl. by eexists.
    - intros k v IHk IHv. simpl. rewrite find_append.
      destruct (List.find (undeclared al) (type_ids k)) as [id|]; simpl in *.
      + by rewrite IHk.
      + destruct IHk as [tk ->]. simpl.
        destruct (List.find (undeclared al) (type_ids v)) as [id|]; simpl in *.
        * by rewrite IHv.
        * destruct IHv as [tv ->]. simpl. by eexists.
    - intros e IHe. simpl.
      destruct (List.find (undeclared al) (type_ids e)) as [id|]; simpl in *.
      + by rewrite IHe.
      + destruct IHe as [te ->]. simpl. by eexists.
    - intros fields Hall. rewrite visitType_struct_unfold, type_ids_struct.
      pose proof (params_resolve_or_raise al fields Hall) as H.
      destruct (List.find (undeclared al) (flat_map param_ids fields)) as [id|];
        simpl in *.
      + by rewrite H.
      + destruct H as [items ->]. simpl. by eexists.
    - intros [par_in par_out] IHg. rewrite visitType_graph_unfold.
      change (type_ids (TypeGraph (mkGraph_type par_in par_out)))
        with (graph_type_ids (mkGraph_type par_in par_out)).
      destruct (List.find (undeclared al) (graph_type_ids (mkGraph_type par_in par_out)))
        as [id|]; unfold resolves_or_raises in IHg |- *.
      + by rewrite IHg.
      + destruct IHg as [fd Hfd]. rewrite Hfd.
        rewrite visitGraph_type_unfold in Hfd.
        apply rbind_Ok in Hfd as (ins & _ & (outs & _ & [= <-])%rbind_Ok).
        simpl. by eexists.
    - intros id. simpl. unfold undeclared, subscript.
      destruct (al !! id) as [t|]; simpl; [by eexists | done].
    - by eexists.
    - intros par_in par_out Hin Hout.
      rewrite visitGraph_type_unfold, graph_type_ids_unfold, find_append.
      unfold visitF_param_list.
      pose proof (params_resolve_or_raise al par_in Hin) as H1.
      pose proof (params_resolve_or_raise al par_out Hout) as H2.
      destruct (List.find (undeclared al) (flat_map param_ids par_in)) as [id|];
        simpl in *.
      + by rewrite H1.
      + destruct H1 as [ins ->]. simpl.
        destruct (List.find (undeclared al) (flat_map param_ids par_out)) as [id|];
          simpl in *.
        * by rewrite H2.
        * destruct H2 as [outs ->]. simpl. by eexists. }
  split; [exact HP|].
  intros [par_in par_out].
  rewrite visitGraph_type_unfold, graph_type_ids_unfold, find_append.
  unfold visitF_param_list.
  assert (Hany : forall l : list (string * Type_),
            Forall (fun p => resolves_or_raises (visitType_ al p.2)
                               (List.find (undeclared al) (type_ids p.2))) l).
  { intros l. apply Forall_forall. intros p _. apply HP. }
  pose proof (params_resolve_or_raise al par_in (Hany par_in)) as H1.
  pose proof (params_resolve_or_raise al par_out (Hany par_out)) as H2.
  destruct (List.find (undeclared al) (flat_map param_ids par_in)) as [id|]; simpl in *.
  - by rewrite H1.
  - destruct H1 as [ins ->]. simpl.
    destruct (List.find (undeclared al) (flat_map param_ids par_out)) as [id|];
      simpl in *.
    + by rewrite H2.
    + destruct H2 as [outs ->]. simpl. by eexists.
Qed.

(** X17: a type alias declaration resolves its type under the aliases
    declared so far and binds the name to the result, so that the name then
    resolves to that type; functions, bound names and the graph are left
    alone.  A declaration whose type uses, at any depth, an alias that is
    not yet declared (its own name included) raises [KeyError] for the
    first such alias that the type visitor reaches; a declaration whose
    type uses declared aliases only succeeds. *)
Theorem type_alias_round_trip (id : string) (ty : Type_) (self : TkslTopVisitor) :
  (forall self1,
     visitTypeAlias id ty self = Ok (tt, self1) ->
     exists t,
       visitType_ (aliases (self_context self)) ty = Ok t /\
       visitType_ (aliases (self_context self1)) (TypeID id) = Ok t /\
       functions (self_context self1) = functions (self_context self) /\
       output_vars (self_context self1) = output_vars (self_context self) /\
       constants (self_context self1) = constants (self_context self) /\
       self_graph self1 = self_graph self) /\
  (forall other,
     first_undeclared (aliases (self_context self)) ty = Some other ->
     aliases (self_context self) !! other = None /\
     other ∈ type_ids ty /\
     visitTypeAlias id ty self = Raise (KeyError other)) /\
  (first_undeclared (aliases (self_context self)) ty = None ->
   exists self1, visitTypeAlias id ty self = Ok (tt, self1)) /\
  (forall other,
     other ∈ type_ids ty -> aliases (self_context self) !! other = None ->
     exists missing, visitTypeAlias id ty self = Raise (KeyError missing)).
Proof.
  pose proof (proj1 (visitType_resolves_or_raises (aliases (self_context self))) ty) as Hty.
  assert (Hfail : forall other,
            first_undeclared (aliases (self_context self)) ty = Some other ->
            visitTypeAlias id ty self = Raise (KeyError other)).
  { intros other Hfirst. rewrite Hfirst in Hty. simpl in Hty.
    unfold visitTypeAlias, bind, get_context, lift. simpl. by rewrite Hty. }
  split; [|split; [|split]].
  - intros self1 H. apply visitTypeAlias_Ok in H as (t & Ht & _ & Hg & Hc).
    exists t. rewrite Hc. simpl. unfold subscript. rewrite lookup_insert_eq. done.
  - intros other Hfirst. split; [|split; [|by apply Hfail]].
    + apply List.find_some in Hfirst as [_ Hun]. unfold undeclared in Hun.
      by destruct (aliases (self_context self) !! other).
    + apply List.find_some in Hfirst as [Hin _]. by apply list_elem_of_In.
  - intros Hfirst. rewrite Hfirst in Hty. destruct Hty as [t Ht].
    unfold visitTypeAlias, bind, get_context, lift. simpl. rewrite Ht. simpl.
    by eexists.
  - intros other Hin Hnone.
    destruct (first_undeclared (aliases (self_context self)) ty) as [missing|] eqn:E.
    + exists missing. by apply Hfail.
    + exfalso. apply list_elem_of_In in Hin.
      pose proof (List.find_none _ _ E other Hin) as Hun.
      unfold undeclared in Hun. by rewrite Hnone in Hun.
Qed.

Lemma type_alias_round_trip_witness :
  visitTypeAlias "L" (TypeVec (TypeID "L")) Samples.in_body = Raise (KeyError "L") /\
  visitTypeAlias "L" (TypePair (TypeID "T") (TypeStruct [("x", TypeMap TypeInt (TypeID "M"))]))
    Samples.in_body = Raise (KeyError "M") /\
  exists self1,
    visitTypeAlias "L" (TypeVec (TypeID "T")) Samples.in_body = Ok (tt, self1) /\
    visitType_ (aliases (self_context self1)) (TypeID "L") = Ok (VecType IntType).
Proof.
  split; [|split].
  - exact (proj2 (proj2 (proj1 (proj2 (type_alias_round_trip "L" (TypeVec (TypeID "L"))
                                         Samples.in_body)) "L" eq_refl))).
  - exact (proj2 (proj2 (proj1 (proj2 (type_alias_round_trip "L"
             (TypePair (TypeID "T") (TypeStruct [("x", TypeMap TypeInt (TypeID "M"))]))
             Samples.in_body)) "M" eq_refl))).
  - destruct (visitTypeAlias "L" (TypeVec (TypeID "T")) Samples.in_body)
      as [[[] self1]|e] eqn:Hrun; [|by vm_compute in Hrun].
    destruct (proj1 (type_alias_round_trip "L" (TypeVec (TypeID "T")) Samples.in_body)
                self1 Hrun) as (t & Ht & Hid & _).
    exists self1. split; [reflexivity|].
    rewrite Hid. rewrite <- Ht. reflexivity.
Defined.







(** ** Output statements *)

Lemma extends_inside_refl g : extends_inside g g.
Proof. exists [], []. rewrite !app_nil_r. by repeat split. Qed.

Lemma extends_inside_trans g1 g2 g3 :
  extends_inside g1 g2 -> extends_inside g2 g3 -> extends_inside g1 g3.
Proof.
  intros (ns & es & Hn & He & Hin) (ns' & es' & Hn' & He' & Hin').
  exists (ns ++ ns'), (es ++ es'). rewrite Hn', He', Hn, He, <- !app_assoc.
  repeat split. by apply Forall_app.
Qed.

Lemma inside_ret {A} (a : A) : works_inside (ret a).
Proof. intros self b self1 [= _ <-]. apply extends_inside_refl. Qed.

Lemma inside_raise {A} e : works_inside (@raise A e).
Proof. intros self b self1 [=]. Qed.

Lemma inside_lift {A} (r : Result A) : works_inside (lift r).
Proof. intros self b self1 [_ ->]%lift_Ok. apply extends_inside_refl. Qed.

Lemma inside_bind {A B} (m : M A) (k : A -> M B) :
  works_inside m -> (forall a, works_inside (k a)) -> works_inside (bind m k).
Proof.
  intros Hm Hk self b self2 (a & self1 & H1 & H2)%bind_Ok.
  eapply extends_inside_trans; [eapply Hm | eapply Hk]; eauto.
Qed.

Lemma inside_get_context : works_inside get_context.
Proof. intros self b self1 [= _ <-]. apply extends_inside_refl. Qed.

Lemma inside_get_sig : works_inside get_sig.
Proof. intros self b self1 [= _ <-]. apply extends_inside_refl. Qed.

Lemma inside_mapM {A B} (f : A -> M B) (l : list A) :
  Forall (fun a => works_inside (f a)) l -> works_inside (mapM f l).
Proof.
  induction 1 as [|a l Ha _ IH]; simpl; [apply inside_ret|].
  apply inside_bind; [done|]. intros b. apply inside_bind; [done|].
  intros bs. apply inside_ret.
Qed.

Lemma incoming_edges_inner next i kwargs :
  Forall inner_edge (incoming_edges next (NodeIdx i) kwargs).
Proof.
  revert next. induction kwargs as [|[k [p|v]] kw IH]; intros next; simpl; [constructor|..];
    (constructor; [unfold inner_edge; simpl; discriminate | apply IH]).
Qed.

Lemma inside_graph_add_const v : works_inside (graph_add_const v).
Proof.
  intros self n self1. rewrite graph_add_const_run. intros [= <- <-]. simpl.
  exists [ConstNode v], []. rewrite app_nil_r. by repeat split.
Qed.

Lemma inside_graph_add_node name kwargs : works_inside (graph_add_node name kwargs).
Proof.
  intros self n self1 (-> & _ & _ & Hn & He)%graph_add_node_Ok.
  eexists _, _. split; [exact Hn|]. split; [exact He|]. apply incoming_edges_inner.
Qed.

Lemma inside_graph_add_box sub name kwargs : works_inside (graph_add_box sub name kwargs).
Proof.
  intros self n self1 (-> & _ & _ & Hn & He)%graph_add_box_Ok.
  eexists _, _. split; [exact Hn|]. split; [exact He|]. apply incoming_edges_inner.
Qed.

Create HintDb inside.
#[local] Hint Resolve inside_ret inside_raise inside_lift inside_get_context inside_get_sig
  inside_graph_add_const inside_graph_add_node inside_graph_add_box : inside.

Ltac inside_auto :=
  repeat first
    [ progress eauto with inside
    | apply inside_bind; [|intros ?]
    | match goal with
      | |- works_inside (match ?x with _ => _ end) => destruct x
      | |- works_inside (let '(_, _) := ?x in _) => destruct x
      | |- works_inside (if ?b then _ else _) => destruct b
      end ].

Lemma inside_visitThunkable_port ctx : works_inside (visitThunkable_port ctx).
Proof.
  destruct ctx; simpl; [| |apply inside_raise].
  - unfold visitPort_label. inside_auto.
  - inside_auto.
Qed.

Lemma inside_visitNamed_map_over (v : Outport -> M (list NodePort)) port_l :
  Forall (fun kv => works_inside (v kv.2)) port_l ->
  works_inside (visitNamed_map_over v port_l).
Proof.
  intros Hall. unfold visitNamed_map_over. apply inside_bind; [|intros; apply inside_ret].
  apply inside_mapM. eapply Forall_impl; [exact Hall|].
  intros [inport outport] Hv. unfold visitPort_map_over. simpl in Hv. inside_auto.
Qed.

Lemma inside_visitPositional_args_over (v : Outport -> M (list NodePort)) arg_l :
  Forall (fun o => works_inside (v o)) arg_l ->
  works_inside (visitPositional_args_over v arg_l).
Proof.
  intros Hall. unfold visitPositional_args_over.
  apply inside_bind; [|intros; apply inside_ret]. by apply inside_mapM.
Qed.

Lemma inside_visitArglist a expected : works_inside (visitArglist a expected).
Proof.
  revert expected.
  apply (Arglist_mut (fun o => works_inside (visitOutport o))
           (fun c => works_inside (visitNode_inputs c))
           (fun a => forall expected, works_inside (visitArglist a expected))).
  - intros tp. apply inside_visitThunkable_port.
  - intros call Hcall. simpl. inside_auto.
  - intros c. simpl. inside_auto.
  - simpl. inside_auto.
  - intros f args Hargs. simpl.
    apply inside_bind; [unfold visitF_name; inside_auto|]. intros [f_name f_def].
    apply inside_bind.
    { destruct args; simpl in *; [apply Hargs | apply inside_raise]. }
    intros arglist. inside_auto.
  - intros tp named Hnamed. simpl.
    apply inside_bind; [apply inside_visitThunkable_port|]. intros ports.
    apply inside_bind; [apply inside_lift|]. intros outport.
    apply inside_bind.
    { destruct named; simpl in *; [by apply inside_visitNamed_map_over | apply inside_ret]. }
    intros arglist. inside_auto.
  - intros port_l Hall expected. simpl. by apply inside_visitNamed_map_over.
  - intros arg_l Hall expected. simpl.
    apply inside_bind; [by apply inside_visitPositional_args_over|].
    intros ?. apply inside_ret.
  - intros expected. simpl. apply inside_raise.
Qed.

Lemma graph_outputs_app ns ns' es es' :
  graph_outputs (mkGraph ns' (es ++ es'))
  = graph_outputs (mkGraph ns es) ++ graph_outputs (mkGraph ns es').
Proof. unfold graph_outputs. simpl. by rewrite filter_app, map_app. Qed.

Lemma graph_outputs_inner ns es : Forall inner_edge es -> graph_outputs (mkGraph ns es) = [].
Proof.
  unfold graph_outputs. simpl. induction 1 as [|e es He _ IH]; [done|].
  rewrite filter_cons. destruct (decide (np_node (edge_target e) = OutputRef)); done.
Qed.

Lemma graph_outputs_extends_inside g g' :
  extends_inside g g' -> graph_outputs g' = graph_outputs g.
Proof.
  destruct g as [ns es], g' as [ns' es']. intros (ns0 & es0 & _ & He & Hin).
  simpl in He. subst es'. rewrite (graph_outputs_app ns).
  by rewrite (graph_outputs_inner _ _ Hin), app_nil_r.
Qed.

Lemma graph_outputs_wired ns (kwargs : list (string * NodePort)) :
  graph_outputs (mkGraph ns (map (fun kv => mkEdge kv.2 (mkNodePort OutputRef kv.1)) kwargs))
  = OrderedDict.keys kwargs.
Proof.
  unfold graph_outputs. simpl. induction kwargs as [|[k p] kw IH]; [done|].
  rewrite List.map_cons, filter_cons. simpl.
  destruct (decide (OutputRef = OutputRef)); [|done]. simpl. by f_equal.
Qed.

(** X19: an output statement that lowers resolves its arguments and then
    wires each bound name, in order, to the port of that name on the
    boundary output node.  The output ports of the graph are afterwards
    those it had before followed by the bound names: resolving the
    arguments adds no output port.  Nodes are added only by the arguments,
    and the context is left as it was.  With positional arguments the
    bound names are an initial part of the outputs of the context, when
    those are distinct. *)
Theorem output_statement (args : option Arglist) (self self1 : TkslTopVisitor) :
  visitOutputCall args self = Ok (tt, self1) ->
  exists argctx kwargs self0,
    args = Some argctx /\
    visitArglist argctx (OrderedDict.keys (outputs (self_context self))) self
    = Ok (kwargs, self0) /\
    graph_nodes (self_graph self1) = graph_nodes (self_graph self0) /\
    graph_edges (self_graph self1)
    = graph_edges (self_graph self0)
      ++ map (fun kv => mkEdge kv.2 (mkNodePort OutputRef kv.1)) kwargs /\
    self_context self1 = self_context self /\
    graph_outputs (self_graph self1)
    = graph_outputs (self_graph self) ++ OrderedDict.keys kwargs /\
    (forall arg_l,
       argctx = ArgPositional arg_l ->
       NoDup (OrderedDict.keys (outputs (self_context self))) ->
       exists n,
         OrderedDict.keys kwargs = take n (OrderedDict.keys (outputs (self_context self)))).
Proof.
  unfold visitOutputCall. destruct args as [argctx|]; [|done]. intros H.
  apply bind_Ok in H as (c & s & Hc & H). injection Hc as <- <-.
  apply bind_Ok in H as (kwargs & self0 & Hargs & H).
  pose proof (frame_visitArglist _ _ _ _ _ Hargs) as (_ & Hctx & _).
  pose proof (inside_visitArglist _ _ _ _ _ Hargs) as Hinside.
  unfold graph_set_outputs in H.
  apply bind_Ok in H as (g & s & Hg & H). injection Hg as <- <-.
  apply bind_Ok in H as (g' & s & Hset & H). apply lift_Ok in Hset as [Hset ->].
  injection H as <-. apply set_outputs_Ok in Hset as [Hn He].
  exists argctx, kwargs, self0. simpl.
  split; [done|]. split; [done|]. split; [done|]. split; [done|]. split; [done|].
  split.
  - rewrite <- (graph_outputs_extends_inside _ _ Hinside).
    destruct g' as [ns' es'], (self_graph self0) as [ns0 es0]. simpl in *. subst.
    by rewrite (graph_outputs_app ns0), (graph_outputs_wired ns0).
  - intros arg_l -> Hnd. simpl in Hargs.
    apply bind_Ok in Hargs as (ports & s & _ & [= <- _]).
    exists (length ports). unfold OrderedDict.keys at 1.
    rewrite of_items_NoDup; rewrite zip_fst; [done|]. by apply NoDup_take.
Qed.

Lemma output_statement_witness :
  exists self1,
    visitOutputCall (Some (ArgPositional [Samples.id_ "d"])) Samples.in_body
    = Ok (tt, self1) /\
    graph_outputs (self_graph self1) = ["r"].
Proof.
  destruct (visitOutputCall (Some (ArgPositional [Samples.id_ "d"])) Samples.in_body)
    as [[[] self1]|e] eqn:Hrun; [|by vm_compute in Hrun].
  destruct (output_statement _ _ _ Hrun)
    as (argctx & kwargs & self0 & Hsome & Hargs & _ & _ & _ & Hout & _).
  injection Hsome as <-. vm_compute in Hargs. injection Hargs as <- _.
  exists self1. split; [reflexivity|]. by rewrite Hout.
Defined.

(** ** The program graph and thunks *)

Lemma sub_visit_run context block self g fin :
  visitCode_block block (new_visitor (self_sig self) context) = Ok (g, fin) ->
  sub_visit visit context block self = Ok (g, self).
Proof.
  intros Hb. unfold sub_visit. erewrite bind_step by reflexivity.
  fold visitCode_block. by rewrite Hb.
Qed.

(** X20: when the declarations before it lower, a final definition of
    [main] whose signature resolves and whose body lowers in the context
    they leave (their functions and aliases, with the declared inputs and
    outputs) makes the program compile to the graph of that body, also
    when an earlier declaration defined [main] already. *)
Theorem last_main_is_compiled (sg : RuntimeSignature) (pre : list Declaration)
    (gt : Graph_type) (block : Code_block) (r : list unit) (self1 : TkslTopVisitor)
    (fd : FunctionDefinition) (g : TierkreisGraph) :
  mapM visit_declaration pre (new_visitor sg empty_context) = Ok (r, self1) ->
  visitGraph_type (aliases (self_context self1)) gt = Ok fd ->
  lowered_in sg (funcdef_context (self_context self1) fd) block g ->
  compile sg (pre ++ [FuncDef "main" gt block]) = Ok g.
Proof.
  intros Hpre Hgt [fin Hblock]. unfold compile, visitStart, bind at 1.
  rewrite mapM_app, Hpre. simpl.
  pose proof (declarations_Ok _ _ _ _ Hpre) as (Hs & _).
  assert (Hdef : visitFuncDef "main" gt block self1
                 = Ok (tt, mkVisitor (self_sig self1)
                             (mkContext (<["main" := (g, fd)]> (functions (self_context self1)))
                                (output_vars (self_context self1))
                                (constants (self_context self1))
                                (inputs (self_context self1))
                                (outputs (self_context self1))
                                (aliases (self_context self1)))
                             (self_graph self1))).
  { unfold visitFuncDef. erewrite bind_step by reflexivity. rewrite Hgt.
    erewrite (bind_step (lift (Ok fd))) by reflexivity.
    erewrite bind_step; [reflexivity|].
    eapply sub_visit_run. rewrite Hs. exact Hblock. }
  unfold bind at 1. rewrite Hdef. simpl. unfold bind, get_context, lift, ret. simpl.
  by rewrite lookup_insert_eq.
Qed.

Lemma last_main_is_compiled_witness :
  compile Samples.catalog
    ([FuncDef "main" (mkGraph_type [] []) []]
     ++ [FuncDef "main" (mkGraph_type [("a", TypeInt)] [("r", TypeInt)])
           [OutputCall (Some (ArgPositional [Samples.id_ "a"]))]])
  = Ok (mkGraph [] [mkEdge (mkNodePort InputRef "a") (mkNodePort OutputRef "r")]).
Proof.
  eapply (last_main_is_compiled Samples.catalog
            [FuncDef "main" (mkGraph_type [] []) []]
            (mkGraph_type [("a", TypeInt)] [("r", TypeInt)])
            [OutputCall (Some (ArgPositional [Samples.id_ "a"]))]).
  - vm_compute. reflexivity.
  - vm_compute. reflexivity.
  - eexists. vm_compute. reflexivity.
Defined.

(** X21: a thunk lowers only if the catalog has [builtin.eval], and the
    signature it returns is the one of that catalog entry, whatever graph
    value is applied: used as a bare name, the result of a thunk resolves
    to the outputs the catalog lists for [eval]. *)
Theorem thunk_signature (tp : Thunkable_port) (named : option Named_map)
    (self self1 : TkslTopVisitor) (n : NodeRef) (fd : FunctionDefinition) :
  visitThunk tp named self = Ok ((n, fd), self1) ->
  exists builtin eval_f,
    self_sig self !! "builtin" = Some builtin /\
    builtin !! "eval" = Some eval_f /\
    fd = def_from_tkfunc eval_f /\
    visitOutport (OutNodeInputs (Thunk tp named)) self
    = Ok (map (mkNodePort n) (output_order eval_f), self1).
Proof.
  unfold visitThunk. intros H.
  assert (Hout : visitOutport (OutNodeInputs (Thunk tp named)) self
                 = Ok (make_outports n (fd_outputs fd), self1)).
  { change (visitOutport (OutNodeInputs (Thunk tp named)))
      with (bind (visitNode_inputs (Thunk tp named))
              (fun r => let '(node_ref, fn) := r in
                        ret (make_outports node_ref (fd_outputs fn)))).
    by erewrite bind_step by exact H. }
  simpl in H.
  apply bind_Ok in H as (ports & s1 & Htp & H).
  apply bind_Ok in H as (outport & s & Hfirst & H). apply lift_Ok in Hfirst as [_ ->].
  apply bind_Ok in H as (arglist & s2 & Hargs & H).
  apply bind_Ok in H as (kwargs & s & Hkw & H). apply lift_Ok in Hkw as [_ ->].
  apply bind_Ok in H as (eval_n & s3 & Hnode & H).
  apply bind_Ok in H as (sg & s & Hsg & H). injection Hsg as <- <-.
  apply bind_Ok in H as (builtin & s & Hb & H). apply lift_Ok in Hb as [Hb ->].
  apply bind_Ok in H as (eval_f & s & He & H). apply lift_Ok in He as [He ->].
  injection H as <- <- <-.
  assert (Hsig : self_sig s3 = self_sig self).
  { destruct (frame_visitThunkable_port _ _ _ _ Htp) as (S1 & _).
    assert (S2 : self_sig s2 = self_sig s1).
    { destruct named; [by destruct (frame_visitNamed_map _ _ _ _ Hargs)|].
      by injection Hargs as _ <-. }
    destruct (frame_graph_add_node _ _ _ _ _ Hnode) as (S3 & _). congruence. }
  rewrite Hsig in Hb. unfold subscript in Hb, He.
  destruct (self_sig self !! "builtin") as [b|]; [|done]. injection Hb as ->.
  destruct (builtin !! "eval") as [ef|] eqn:Ee; [|done]. injection He as ->.
  exists builtin, eval_f. split; [done|]. split; [done|]. split; [done|]. exact Hout.
Qed.

Lemma thunk_signature_witness :
  exists self1,
    visitOutport (OutNodeInputs (Thunk (ThunkID "f") (Some [("x", Samples.id_ "a")])))
                 Samples.in_body = Ok ([], self1).
Proof.
  destruct (visitThunk (ThunkID "f") (Some [("x", Samples.id_ "a")]) Samples.in_body)
    as [[[n fd] self1]|e] eqn:Hrun; [|by vm_compute in Hrun].
  destruct (thunk_signature _ _ _ _ _ _ Hrun) as (builtin & eval_f & Hb & He & _ & Hout).
  exists self1. rewrite Hout. vm_compute in Hb. injection Hb as <-.
  vm_compute in He. injection He as <-. reflexivity.
Defined.
